(** * Crossword generator: the constraint-satisfaction core of [generate.py]

    A shallow embedding of class [CrosswordCreator] (node consistency,
    [revise], [ac3], [consistent], the two heuristics, [backtrack] and
    [solve]) and the properties of it that the specification states.

    Conventions of the embedding.
    - A Python [set] is the list of its members in iteration order; a list
      that stands for a set has no duplicates ([NoDup]).
    - A Python [dict] is an association list in insertion order (which is
      the order Python iterates it in); its keys are pairwise distinct.
    - A Python exception is a value [Raise e] of type [result];
      [x <- e ;; k] is sequencing that propagates it.
    - [self.domains] is the only mutable attribute: a method that mutates
      it takes the store and returns the new one.  Every domain is a set
      object of its own ([__init__] copies the dictionary once per slot),
      so [self.domains[var].remove(value)] updates the entry of [var]
      and no other.
    - A loop is a [Fixpoint] on the list it iterates over; the two that
      are not ([while] in [ac3], the recursion of [backtrack]) take a
      bound [fuel], shown below never to be reached. *)

From Stdlib Require Import List String Ascii Bool Arith Lia.
From Stdlib Require Import Permutation Sorted.
Import ListNotations.

Local Open Scope string_scope.
Local Open Scope list_scope.
Local Open Scope nat_scope.

(* ------------------------------------------------------------------ *)
(** ** Exceptions *)

Inductive exn : Type :=
| KeyError      (* missing dict key, [set.remove] of an absent member *)
| IndexError    (* string or list index out of range, pop from an empty list *)
| OutOfFuel.    (* the embedding's recursion bound was reached *)

Inductive result (A : Type) : Type :=
| Ok (a : A)
| Raise (e : exn).

Arguments Ok {A} a.
Arguments Raise {A} e.

Definition bind {A B} (m : result A) (k : A -> result B) : result B :=
  match m with
  | Ok a => k a
  | Raise e => Raise e
  end.

Notation "x <- m ;; k" := (bind m (fun x => k))
  (at level 61, m at next level, right associativity).
Notation "' p <- m ;; k" := (bind m (fun x => match x with p => k end))
  (at level 61, p pattern, m at next level, right associativity).

(* ------------------------------------------------------------------ *)
(** ** Decidable equality of keys *)

Class EqDec (K : Type) := eq_dec : forall x y : K, {x = y} + {x <> y}.

#[export] Instance string_EqDec : EqDec string := string_dec.

Definition eqb_of {K} `{EqDec K} (x y : K) : bool :=
  if eq_dec x y then true else false.

(* ------------------------------------------------------------------ *)
(** ** Python sets of words and strings *)

Abbreviation pyset := (list string) (only parsing).

Module PySet.

(** [w in s] *)
Definition mem (w : string) (s : pyset) : bool :=
  existsb (String.eqb w) s.

(** [s.remove(w)]: raises [KeyError] when [w] is not a member. *)
Definition remove (w : string) (s : pyset) : result pyset :=
  if mem w s then Ok (filter (fun v => negb (String.eqb v w)) s)
  else Raise KeyError.

(** [s1 == s2] on sets: same members. *)
Definition eqb (s1 s2 : pyset) : bool :=
  forallb (fun w => mem w s2) s1 && forallb (fun w => mem w s1) s2.

End PySet.

(** [w[k]]: raises [IndexError] when [k] is out of range (the indices of
    the overlap table are never negative). *)
Definition char_at (w : string) (k : nat) : result ascii :=
  match String.get k w with
  | Some ch => Ok ch
  | None => Raise IndexError
  end.

(* ------------------------------------------------------------------ *)
(** ** Python dicts *)

Definition dict (K V : Type) := list (K * V).

Module Dict.
Section Ops.
Context {K V : Type} `{EqDec K}.

Definition keys (d : dict K V) : list K := map fst d.

(** [k in d] *)
Fixpoint mem (k : K) (d : dict K V) : bool :=
  match d with
  | [] => false
  | (k', _) :: d' => if eq_dec k k' then true else mem k d'
  end.

(** [d[k]]: raises [KeyError] when [k] is not a key. *)
Fixpoint get (k : K) (d : dict K V) : result V :=
  match d with
  | [] => Raise KeyError
  | (k', v) :: d' => if eq_dec k k' then Ok v else get k d'
  end.

(** [d[k] = v]: an existing key keeps its place, a new one goes last. *)
Fixpoint set (k : K) (v : V) (d : dict K V) : dict K V :=
  match d with
  | [] => [(k, v)]
  | (k', v') :: d' =>
      if eq_dec k k' then (k', v) :: d' else (k', v') :: set k v d'
  end.

(** [del d[k]]: raises [KeyError] when [k] is not a key. *)
Fixpoint del (k : K) (d : dict K V) : result (dict K V) :=
  match d with
  | [] => Raise KeyError
  | (k', v') :: d' =>
      if eq_dec k k' then Ok d'
      else d'' <- del k d' ;; Ok ((k', v') :: d'')
  end.

End Ops.
End Dict.

(* ------------------------------------------------------------------ *)
(** ** The puzzle model *)

Inductive Direction : Type := ACROSS | DOWN.

(** A slot ([Variable] of module [crossword]): equal iff the four fields
    are. *)
Record Var : Type := mkVar {
  var_i : nat;
  var_j : nat;
  var_direction : Direction;
  var_length : nat
}.

#[export] Instance Var_EqDec : EqDec Var.
Proof.
  unfold EqDec. repeat decide equality.
Defined.

(** Modelled from the spec: the Puzzle Model, class [Crossword] of module
    [crossword], which these sources import and never define.  It supplies
    the slots, the dictionary, the overlap table ([None] for "no overlap",
    else the pair of indices; read for ordered pairs of distinct slots
    only) and, per slot, its neighbors (the slots sharing an overlap with
    it), each set given in its iteration order. *)
Record Crossword : Type := mkCrossword {
  variables : list Var;
  words : pyset;
  overlaps : Var -> Var -> option (nat * nat);
  neighbors : Var -> list Var
}.

(** [self.domains] and an assignment. *)
Definition Domains := dict Var pyset.
Definition Assignment := dict Var string.

(** [__init__]: every slot starts with its own copy of the dictionary. *)
Definition init_domains (c : Crossword) : Domains :=
  map (fun var => (var, words c)) (variables c).

(* ------------------------------------------------------------------ *)
(** ** [enforce_node_consistency] *)

(** The inner loop, [for value in domainCopy]. *)
Fixpoint enforce_values (var : Var) (domainCopy : list string) (d : Domains)
  : result Domains :=
  match domainCopy with
  | [] => Ok d
  | value :: rest =>
      if negb (String.length value =? var_length var) then
        s <- Dict.get var d ;;
        s' <- PySet.remove value s ;;
        enforce_values var rest (Dict.set var s' d)
      else enforce_values var rest d
  end.

(** The outer loop, [for var in self.domains.keys()]. *)
Fixpoint enforce_vars (vars : list Var) (d : Domains) : result Domains :=
  match vars with
  | [] => Ok d
  | var :: rest =>
      domainCopy <- Dict.get var d ;;
      d' <- enforce_values var domainCopy d ;;
      enforce_vars rest d'
  end.

Definition enforce_node_consistency (d : Domains) : result Domains :=
  enforce_vars (Dict.keys d) d.

(* ------------------------------------------------------------------ *)
(** ** [revise] *)

(** [w in l] for a list of words. *)
Definition list_mem (w : string) (l : list string) : bool :=
  existsb (String.eqb w) l.

(** [for yvalue in self.domains[y]], for one [xvalue]. *)
Fixpoint revise_inner (a b : nat) (xvalue : string) (ys : list string)
    (removable : list string) : result (list string) :=
  match ys with
  | [] => Ok removable
  | yvalue :: rest =>
      cx <- char_at xvalue a ;;
      cy <- char_at yvalue b ;;
      if Ascii.eqb cx cy then
        if negb (list_mem xvalue removable)
        then revise_inner a b xvalue rest (removable ++ [xvalue])
        else revise_inner a b xvalue rest removable
      else revise_inner a b xvalue rest removable
  end.

(** [for xvalue in self.domains[x]]. *)
Fixpoint revise_outer (a b : nat) (d : Domains) (y : Var) (xs : list string)
    (removable : list string) : result (list string) :=
  match xs with
  | [] => Ok removable
  | xvalue :: rest =>
      ys <- Dict.get y d ;;
      removable' <- revise_inner a b xvalue ys removable ;;
      revise_outer a b d y rest removable'
  end.

(** [for avalue in xdomainCopy]. *)
Fixpoint revise_prune (x : Var) (xdomainCopy : list string)
    (removable : list string) (d : Domains) : result Domains :=
  match xdomainCopy with
  | [] => Ok d
  | avalue :: rest =>
      if negb (list_mem avalue removable) then
        s <- Dict.get x d ;;
        s' <- PySet.remove avalue s ;;
        revise_prune x rest removable (Dict.set x s' d)
      else revise_prune x rest removable d
  end.

Definition revise (c : Crossword) (x y : Var) (d : Domains)
  : result (bool * Domains) :=
  match overlaps c x y with
  | None => Ok (false, d)
  | Some (a, b) =>
      xdomainCopy <- Dict.get x d ;;
      xs <- Dict.get x d ;;
      removable <- revise_outer a b d y xs [] ;;
      d' <- revise_prune x xdomainCopy removable d ;;
      s <- Dict.get x d' ;;
      Ok (negb (PySet.eqb xdomainCopy s), d')
  end.

(* ------------------------------------------------------------------ *)
(** ** [ac3] *)

Abbreviation Arc := (Var * Var)%type (only parsing).

(** Truth value of a list: empty is false. *)
Definition truthy {A} (l : list A) : bool :=
  match l with
  | [] => false
  | _ :: _ => true
  end.

(** The seeding loops: every ordered pair of distinct keys of
    [self.domains] with an overlap, in iteration order. *)
Definition initial_arcs (c : Crossword) (d : Domains) : list Arc :=
  flat_map (fun a =>
    flat_map (fun b =>
      if negb (eqb_of a b) then
        match overlaps c a b with
        | Some _ => [(a, b)]
        | None => []
        end
      else [])
      (Dict.keys d))
    (Dict.keys d).

(** The arcs [revise] makes [ac3] queue again: [(z, x)] for every neighbor
    [z] of [x] but [y]. *)
Definition requeue (c : Crossword) (x y : Var) : list Arc :=
  map (fun z => (z, x))
      (filter (fun z => negb (eqb_of z y)) (neighbors c x)).

(** The loop [while not arclist: ...; return True], one unfolding per
    iteration. *)
Fixpoint ac3_loop (fuel : nat) (c : Crossword) (arclist : list Arc)
    (d : Domains) : result (bool * Domains) :=
  match fuel with
  | O => Raise OutOfFuel
  | S fuel' =>
      if negb (truthy arclist) then
        match arclist with                    (* x, y = arclist.pop(0) *)
        | [] => Raise IndexError
        | (x, y) :: arclist' =>
            '(revised, d') <- revise c x y d ;;
            if (revised : bool) then
              s <- Dict.get x d' ;;
              if List.length s =? 0 then Ok (false, d')
              else ac3_loop fuel' c (arclist' ++ requeue c x y) d'
            else ac3_loop fuel' c arclist' d'
        end
      else Ok (true, d)
  end.

(** Number of words held by the store. *)
Definition store_size (d : Domains) : nat :=
  list_sum (map (fun kv => List.length (snd kv)) d).

(** Iterations granted to the loop: the queued arcs, plus for every word
    that can still be removed a re-queueing of every arc. *)
Definition ac3_fuel (arclist : list Arc) (d : Domains) : nat :=
  S (List.length arclist
     + store_size d * (List.length d * List.length d)).

(** [ac3(arcs)]; [arcs = None] is the default argument. *)
Definition ac3 (c : Crossword) (arcs : option (list Arc)) (d : Domains)
  : result (bool * Domains) :=
  let arclist :=
    match arcs with
    | Some (arc :: rest) => arc :: rest       (* arclist = arcs *)
    | _ => initial_arcs c d                   (* if not arcs: *)
    end in
  ac3_loop (ac3_fuel arclist d) c arclist d.

(* ------------------------------------------------------------------ *)
(** ** [assignment_complete] and [consistent] *)

Definition assignment_complete (d : Domains) (assignment : Assignment)
  : bool :=
  forallb (fun var => Dict.mem var assignment) (Dict.keys d).

(** [for neighbor in self.crossword.neighbors(var)]: [Ok false] stands for
    the [return False] inside the loop. *)
Fixpoint consistent_neighbors (c : Crossword) (assignment : Assignment)
    (var : Var) (ns : list Var) : result bool :=
  match ns with
  | [] => Ok true
  | neighbor :: rest =>
      match overlaps c var neighbor with
      | Some (a, b) =>
          if Dict.mem neighbor assignment then
            wv <- Dict.get var assignment ;;
            cv <- char_at wv a ;;
            wn <- Dict.get neighbor assignment ;;
            cn <- char_at wn b ;;
            if negb (Ascii.eqb cv cn) then Ok false
            else consistent_neighbors c assignment var rest
          else consistent_neighbors c assignment var rest
      | None => consistent_neighbors c assignment var rest
      end
  end.

(** [for var in assignment.keys()], with the list [values] seen so far. *)
Fixpoint consistent_vars (c : Crossword) (assignment : Assignment)
    (vars : list Var) (values : list string) : result bool :=
  match vars with
  | [] => Ok true
  | var :: rest =>
      w <- Dict.get var assignment ;;
      if negb (var_length var =? String.length w) then Ok false
      else if list_mem w values then Ok false
      else
        ok <- consistent_neighbors c assignment var (neighbors c var) ;;
        if (ok : bool) then consistent_vars c assignment rest (values ++ [w])
        else Ok false
  end.

Definition consistent (c : Crossword) (assignment : Assignment)
  : result bool :=
  consistent_vars c assignment (Dict.keys assignment) [].

(* ------------------------------------------------------------------ *)
(** ** [sorted] *)

(** [sorted(l, key=key, reverse=reverse)] for integer keys: the stable
    sort, by insertion from the right.  An element goes before the first
    one that does not precede it strictly, hence before the elements of
    equal key that followed it in [l]. *)
Section Sorted.
Context {A : Type} (key : A -> nat) (reverse : bool).

Definition precedes (x y : A) : bool :=
  if reverse then key y <=? key x else key x <=? key y.

Fixpoint insert_sorted (x : A) (l : list A) : list A :=
  match l with
  | [] => [x]
  | y :: l' => if precedes x y then x :: y :: l' else y :: insert_sorted x l'
  end.

Definition sorted (l : list A) : list A :=
  fold_right insert_sorted [] l.
End Sorted.

(* ------------------------------------------------------------------ *)
(** ** [order_domain_values] *)

(** [for neigborvalue in self.domains[oneneigbor]]: [cnt] is
    [count[values]]. *)
Fixpoint odv_count_values (overlap : option (nat * nat)) (values : string)
    (nvals : list string) (cnt : nat) : result nat :=
  match nvals with
  | [] => Ok cnt
  | neigborvalue :: rest =>
      match overlap with
      | Some (a, b) =>
          cn <- char_at neigborvalue b ;;
          cv <- char_at values a ;;
          if Ascii.eqb cn cv then odv_count_values overlap values rest (S cnt)
          else odv_count_values overlap values rest cnt
      | None => odv_count_values overlap values rest cnt
      end
  end.

(** [for oneneigbor in neighbor]. *)
Fixpoint odv_count_neighbors (c : Crossword) (d : Domains)
    (assignment : Assignment) (var : Var) (values : string)
    (ns : list Var) (cnt : nat) : result nat :=
  match ns with
  | [] => Ok cnt
  | oneneigbor :: rest =>
      if Dict.mem oneneigbor assignment then
        odv_count_neighbors c d assignment var values rest cnt
      else
        nvals <- Dict.get oneneigbor d ;;
        cnt' <- odv_count_values (overlaps c var oneneigbor) values nvals cnt ;;
        odv_count_neighbors c d assignment var values rest cnt'
  end.

(** [for values in self.domains[var]]: the entry [count[values]] is
    created at 0 and only that entry is touched until the next word, so it
    is computed apart and stored in its place. *)
Fixpoint odv_count (c : Crossword) (d : Domains) (assignment : Assignment)
    (var : Var) (vals : list string) (count : dict string nat)
  : result (dict string nat) :=
  match vals with
  | [] => Ok count
  | values :: rest =>
      cnt <- odv_count_neighbors c d assignment var values
               (neighbors c var) 0 ;;
      odv_count c d assignment var rest (Dict.set values cnt count)
  end.

Definition order_domain_values (c : Crossword) (d : Domains) (var : Var)
    (assignment : Assignment) : result (list string) :=
  vals <- Dict.get var d ;;
  count <- odv_count c d assignment var vals [] ;;
  let sorted_order := sorted snd true count in
  Ok (map fst sorted_order).

(* ------------------------------------------------------------------ *)
(** ** [select_unassigned_variable] *)

(** The first loop: [count[var]] is the size of [self.domains[var]], for
    the keys not in [assignment]. *)
Fixpoint suv_count (d : Domains) (assignment : Assignment)
    (vars : list Var) (count : dict Var nat) : result (dict Var nat) :=
  match vars with
  | [] => Ok count
  | var :: rest =>
      if Dict.mem var assignment then suv_count d assignment rest count
      else
        s <- Dict.get var d ;;
        suv_count d assignment rest (Dict.set var (List.length s) count)
  end.

(** The second loop: [neigbor[k]] is the number of neighbors of [k], for
    the entries of [count] equal to [highestValue]. *)
Fixpoint suv_degree (c : Crossword) (highestValue : nat)
    (items : list (Var * nat)) (neigbor : dict Var nat) : dict Var nat :=
  match items with
  | [] => neigbor
  | (k, v) :: rest =>
      if v =? highestValue
      then suv_degree c highestValue rest
             (Dict.set k (List.length (neighbors c k)) neigbor)
      else suv_degree c highestValue rest neigbor
  end.

Definition select_unassigned_variable (c : Crossword) (d : Domains)
    (assignment : Assignment) : result Var :=
  count <- suv_count d assignment (Dict.keys d) [] ;;
  match sorted snd false count with
  | [] => Raise IndexError
  | (_, highestValue) :: _ =>
      let neigbor := suv_degree c highestValue count [] in
      match sorted snd true neigbor with
      | [] => Raise IndexError
      | (required_variable, _) :: _ => Ok required_variable
      end
  end.

(* ------------------------------------------------------------------ *)
(** ** [backtrack] and [solve] *)

(** The loop [for value in self.order_domain_values(var, assignment)] of
    [backtrack]; [recurse] is the recursive call.  The shared dict
    [assignment] is threaded through the iterations: [assignment[var] =
    value] is [Dict.set], [del assignment[var]] is [Dict.del].
    [if result:] holds for a non-empty dict, not for [None] nor for an
    empty dict. *)
Fixpoint try_values (recurse : Assignment -> result (option Assignment))
    (c : Crossword) (var : Var) (vals : list string)
    (assignment : Assignment) : result (option Assignment) :=
  match vals with
  | [] => Ok None
  | value :: rest =>
      let assignment1 := Dict.set var value assignment in
      ok <- consistent c assignment1 ;;
      if (ok : bool) then
        result <- recurse assignment1 ;;
        match result with
        | Some (binding :: more) => Ok (Some (binding :: more))
        | _ =>
            assignment2 <- Dict.del var assignment1 ;;
            try_values recurse c var rest assignment2
        end
      else
        assignment2 <- Dict.del var assignment1 ;;
        try_values recurse c var rest assignment2
  end.

(** [backtrack(assignment)]; each level of the recursion uses one unit of
    [fuel]. *)
Fixpoint backtrack_fuel (fuel : nat) (c : Crossword) (d : Domains)
    (assignment : Assignment) : result (option Assignment) :=
  match fuel with
  | O => Raise OutOfFuel
  | S fuel' =>
      if assignment_complete d assignment then Ok (Some assignment)
      else
        var <- select_unassigned_variable c d assignment ;;
        vals <- order_domain_values c d var assignment ;;
        try_values (backtrack_fuel fuel' c d) c var vals assignment
  end.

(** Number of keys of [self.domains] that [assignment] leaves out: the
    depth the recursion can reach. *)
Definition unassigned (d : Domains) (assignment : Assignment) : nat :=
  List.length
    (filter (fun var => negb (Dict.mem var assignment)) (Dict.keys d)).

Definition backtrack (c : Crossword) (d : Domains)
    (assignment : Assignment) : result (option Assignment) :=
  backtrack_fuel (S (unassigned d assignment)) c d assignment.

(** [solve()]: the boolean that [ac3] returns is dropped. *)
Definition solve (c : Crossword) (d : Domains)
  : result (option Assignment) :=
  d1 <- enforce_node_consistency d ;;
  '(_, d2) <- ac3 c None d1 ;;
  backtrack c d2 [].

(* ------------------------------------------------------------------ *)
(** ** Vocabulary of the specification *)

(** The store is a dict of sets: distinct keys, and no word twice in a
    domain. *)
Definition domains_wf (d : Domains) : Prop :=
  NoDup (Dict.keys d) /\ Forall (fun kv => NoDup (snd kv)) d.

(** The unary constraint: the word has the length of the slot. *)
Definition fits (var : Var) (w : string) : bool :=
  String.length w =? var_length var.

(** The store with, in every domain, the words of the wrong length taken
    out, and nothing else changed. *)
Definition node_pruned (d : Domains) : Domains :=
  map (fun kv => (fst kv, filter (fits (fst kv)) (snd kv))) d.

(** The loop that [enforce_node_consistency] and [revise] share:
    [for value in copy: if bad(value): self.domains[var].remove(value)]. *)
Fixpoint prune_loop (bad : string -> bool) (var : Var) (copy : list string)
    (d : Domains) : result Domains :=
  match copy with
  | [] => Ok d
  | value :: rest =>
      if bad value then
        s <- Dict.get var d ;;
        s' <- PySet.remove value s ;;
        prune_loop bad var rest (Dict.set var s' d)
      else prune_loop bad var rest d
  end.

(** Agreement of two words at the overlap [(a, b)]: [w[a] == v[b]]. *)
Definition agree (a b : nat) (w v : string) : Prop :=
  exists ch, String.get a w = Some ch /\ String.get b v = Some ch.

Definition agreeb (a b : nat) (w v : string) : bool :=
  match String.get a w, String.get b v with
  | Some cw, Some cv => Ascii.eqb cw cv
  | _, _ => false
  end.

(** Some word of [dy] agrees with [w]. *)
Definition supported (a b : nat) (dy : pyset) (w : string) : bool :=
  existsb (agreeb a b w) dy.

(** Index [k] exists in every word of [s]. *)
Definition in_range (k : nat) (s : pyset) : Prop :=
  Forall (fun w => k < String.length w) s.

(** Arc consistency of the store: every word of every domain has, in the
    domain of every neighbor, a word that agrees with it at the overlap. *)
Definition arc_consistent (c : Crossword) (d : Domains) : Prop :=
  forall x y a b (dx dy : pyset) w,
    In y (neighbors c x) -> overlaps c x y = Some (a, b) ->
    Dict.get x d = Ok dx -> Dict.get y d = Ok dy -> In w dx ->
    exists v, In v dy /\ agree a b w v.

(** No two distinct slots of the store share a cell. *)
Definition no_overlap (c : Crossword) (d : Domains) : Prop :=
  forall a b, In a (Dict.keys d) -> In b (Dict.keys d) -> a <> b ->
              overlaps c a b = None.

(** The sub-assignment of [assignment] on the slots that [keep] holds
    for. *)
Definition restrict (keep : Var -> bool) (assignment : Assignment)
  : Assignment :=
  filter (fun kv => keep (fst kv)) assignment.

(** Every slot of the store has a word. *)
Definition assigns_all (d : Domains) (assignment : Assignment) : Prop :=
  forall var, In var (Dict.keys d) -> exists w, Dict.get var assignment = Ok w.

(** No length mismatch, pairwise distinct words, agreement at every
    overlap of two assigned slots. *)
Definition well_filled (c : Crossword) (assignment : Assignment) : Prop :=
  (forall var w, Dict.get var assignment = Ok w ->
                 var_length var = String.length w) /\
  (forall var1 var2 w, Dict.get var1 assignment = Ok w ->
                       Dict.get var2 assignment = Ok w -> var1 = var2) /\
  (forall var n a b wv wn,
      In n (neighbors c var) -> overlaps c var n = Some (a, b) ->
      Dict.get var assignment = Ok wv -> Dict.get n assignment = Ok wn ->
      agree a b wv wn).

(** What [backtrack] is to return: [assignment_complete] and [consistent]
    hold of it. *)
Definition solution (c : Crossword) (d : Domains) (r : Assignment) : Prop :=
  assignment_complete d r = true /\ consistent c r = Ok true.

(** The neighbors of [var] that [assignment] leaves out. *)
Definition unassigned_neighbors (c : Crossword) (assignment : Assignment)
    (var : Var) : list Var :=
  filter (fun n => negb (Dict.mem n assignment)) (neighbors c var).

(** Sum over the unassigned neighbors [n] of [var] of [measure] at the
    overlap of [var] with [n] and the domain of [n]. *)
Definition over_neighbors (c : Crossword) (d : Domains)
    (assignment : Assignment) (var : Var)
    (measure : option (nat * nat) -> pyset -> nat) : nat :=
  list_sum
    (map (fun n =>
            match Dict.get n d with
            | Ok dn => measure (overlaps c var n) dn
            | Raise _ => 0
            end)
         (unassigned_neighbors c assignment var)).

(** Words of [dn] whose character at the overlap differs from that of
    [w]: the values that [w] rules out for that neighbor. *)
Definition ruled_out_in (w : string) (overlap : option (nat * nat))
    (dn : pyset) : nat :=
  match overlap with
  | Some (a, b) => List.length (filter (fun v => negb (agreeb a b w v)) dn)
  | None => 0
  end.

(** The number of values that [w] rules out for the unassigned neighbors
    of [var]. *)
Definition ruled_out (c : Crossword) (d : Domains) (assignment : Assignment)
    (var : Var) (w : string) : nat :=
  over_neighbors c d assignment var (ruled_out_in w).

(** Words of [dn] that agree with [w] at the overlap: what the source
    counts in [count[values]]. *)
Definition kept_in (w : string) (overlap : option (nat * nat))
    (dn : pyset) : nat :=
  match overlap with
  | Some (a, b) => List.length (filter (agreeb a b w) dn)
  | None => 0
  end.

Definition kept (c : Crossword) (d : Domains) (assignment : Assignment)
    (var : Var) (w : string) : nat :=
  over_neighbors c d assignment var (kept_in w).

(** The store has a domain for every unassigned neighbor of [var], and the
    overlap indices exist in the words of [dv] and of that domain. *)
Definition neighbors_in_range (c : Crossword) (d : Domains)
    (assignment : Assignment) (var : Var) (dv : pyset) : Prop :=
  forall n, In n (neighbors c var) -> Dict.mem n assignment = false ->
    exists dn, Dict.get n d = Ok dn /\
      forall a b, overlaps c var n = Some (a, b) ->
                  in_range a dv /\ in_range b dn.

(** A result of Python's own: a value or one of its exceptions, not the
    exhaustion of the embedding's recursion bound. *)
Definition pythonic {A : Type} (m : result A) : Prop := m <> Raise OutOfFuel.

(* ------------------------------------------------------------------ *)
(** ** [letter_grid] *)

(** The letters of the grid: a list of rows, each a list of cells, a cell
    being [None] or a letter. *)
Definition Grid := list (list (option ascii)).

(** [l[i]]: raises [IndexError] when [i] is out of range. *)
Definition list_get {A} (l : list A) (i : nat) : result A :=
  match nth_error l i with
  | Some x => Ok x
  | None => Raise IndexError
  end.

(** [l[i] = x]: raises [IndexError] when [i] is out of range. *)
Fixpoint list_set {A} (l : list A) (i : nat) (x : A) : result (list A) :=
  match l, i with
  | [], _ => Raise IndexError
  | _ :: l', O => Ok (x :: l')
  | y :: l', S i' => l'' <- list_set l' i' x ;; Ok (y :: l'')
  end.

(** [letters[i][j] = x]: the row [letters[i]] is fetched, then written at
    [j]; the rows are objects of their own, so the write changes that row
    of the grid and no other. *)
Definition grid_set (i j : nat) (x : option ascii) (letters : Grid)
  : result Grid :=
  row <- list_get letters i ;;
  row' <- list_set row j x ;;
  list_set letters i row'.

Arguments grid_set : simpl never.

Definition direction_eqb (d1 d2 : Direction) : bool :=
  match d1, d2 with
  | ACROSS, ACROSS | DOWN, DOWN => true
  | _, _ => false
  end.

(** [for k in range(len(word))]. *)
Fixpoint letter_grid_word (variable : Var) (word : string) (ks : list nat)
    (letters : Grid) : result Grid :=
  match ks with
  | [] => Ok letters
  | k :: rest =>
      let direction := var_direction variable in
      let i := var_i variable + (if direction_eqb direction DOWN then k else 0) in
      let j := var_j variable + (if direction_eqb direction ACROSS then k else 0) in
      ch <- char_at word k ;;
      letters' <- grid_set i j (Some ch) letters ;;
      letter_grid_word variable word rest letters'
  end.

(** [for variable, word in assignment.items()]. *)
Fixpoint letter_grid_items (items : list (Var * string)) (letters : Grid)
  : result Grid :=
  match items with
  | [] => Ok letters
  | (variable, word) :: rest =>
      letters' <- letter_grid_word variable word
                    (seq 0 (String.length word)) letters ;;
      letter_grid_items rest letters'
  end.

(** [letter_grid(assignment)]; [height] and [width] are
    [self.crossword.height] and [self.crossword.width]. *)
Definition letter_grid (height width : nat) (assignment : Assignment)
  : result Grid :=
  letter_grid_items assignment (repeat (repeat None width) height).

(** The cell [(i, j)] that [letter_grid] writes character [k] of the word
    of [variable] to. *)
Definition cell_of (variable : Var) (k : nat) : nat * nat :=
  (var_i variable
   + (if direction_eqb (var_direction variable) DOWN then k else 0),
   var_j variable
   + (if direction_eqb (var_direction variable) ACROSS then k else 0)).

(** The content of a cell of the grid, if the cell exists. *)
Definition grid_at (letters : Grid) (cell : nat * nat)
  : option (option ascii) :=
  match nth_error letters (fst cell) with
  | Some row => nth_error row (snd cell)
  | None => None
  end.

(** [height] rows of [width] cells. *)
Definition rectangular (height width : nat) (letters : Grid) : Prop :=
  List.length letters = height /\
  Forall (fun row => List.length row = width) letters.

(** Character [k] of [word] goes to [cell] when [variable] has [word]. *)
Definition covers (variable : Var) (word : string) (cell : nat * nat)
  : Prop :=
  exists k, k < String.length word /\ cell_of variable k = cell.

(** Every cell of every assigned word lies on the grid. *)
Definition on_grid (height width : nat) (assignment : Assignment) : Prop :=
  forall variable word k,
    In (variable, word) assignment -> k < String.length word ->
    fst (cell_of variable k) < height /\ snd (cell_of variable k) < width.

(* ------------------------------------------------------------------ *)
(** ** Vocabulary of the further properties *)

(** [r] keeps every binding of [assignment]. *)
Definition extends (assignment r : Assignment) : Prop :=
  forall k w, Dict.get k assignment = Ok w -> Dict.get k r = Ok w.

(** Every binding of [r] is one of [assignment] or gives the slot a word
    of its domain. *)
Definition drawn_from (d : Domains) (assignment r : Assignment) : Prop :=
  forall k w, Dict.get k r = Ok w ->
    Dict.get k assignment = Ok w \/
    exists dk : pyset, Dict.get k d = Ok dk /\ In w dk.

(** The neighbors of a slot of the store are slots of the store, and an
    overlap indexes inside the two slots. *)
Definition model_wf (c : Crossword) (d : Domains) : Prop :=
  forall var n, In var (Dict.keys d) -> In n (neighbors c var) ->
    In n (Dict.keys d) /\
    forall a b, overlaps c var n = Some (a, b) ->
                a < var_length var /\ b < var_length n.

(** Every word of every domain has the length of its slot. *)
Definition node_consistent (d : Domains) : Prop :=
  forall var (dv : pyset) w,
    Dict.get var d = Ok dv -> In w dv -> String.length w = var_length var.

(** Every assigned word comes from the domain of its slot. *)
Definition drawn (d : Domains) (assignment : Assignment) : Prop :=
  forall k w, Dict.get k assignment = Ok w ->
    exists dk : pyset, Dict.get k d = Ok dk /\ In w dk.

(* ------------------------------------------------------------------ *)
(** ** Small puzzles *)

Module Examples.

(** A 3-letter across slot crossed at its second cell by the first cell
    of a 3-letter down slot; dictionary CAT, DOG. *)
Definition A : Var := mkVar 0 0 ACROSS 3.
Definition B : Var := mkVar 0 1 DOWN 3.

Definition overlapsAB (x y : Var) : option (nat * nat) :=
  if eq_dec x A then (if eq_dec y B then Some (1, 0) else None)
  else if eq_dec x B then (if eq_dec y A then Some (0, 1) else None)
  else None.

Definition neighborsAB (x : Var) : list Var :=
  if eq_dec x A then [B] else if eq_dec x B then [A] else [].

Definition crossed : Crossword :=
  mkCrossword [A; B] ["CAT"; "DOG"] overlapsAB neighborsAB.

(** A 3-letter across slot whose last cell is the first cell of a
    4-letter down slot. *)
Definition A3 : Var := mkVar 0 0 ACROSS 3.
Definition B4 : Var := mkVar 0 2 DOWN 4.

Definition overlaps34 (x y : Var) : option (nat * nat) :=
  if eq_dec x A3 then (if eq_dec y B4 then Some (2, 0) else None)
  else if eq_dec x B4 then (if eq_dec y A3 then Some (0, 2) else None)
  else None.

Definition neighbors34 (x : Var) : list Var :=
  if eq_dec x A3 then [B4] else if eq_dec x B4 then [A3] else [].

(** Dictionary CAT, DOG: no 4-letter word. *)
Definition corner : Crossword :=
  mkCrossword [A3; B4] ["CAT"; "DOG"] overlaps34 neighbors34.

(** Dictionary CAT, TOGA, DOG. *)
Definition corner_toga : Crossword :=
  mkCrossword [A3; B4] ["CAT"; "TOGA"; "DOG"] overlaps34 neighbors34.

(** Two 3-letter across slots on rows 0 and 2: no shared cell. *)
Definition P : Var := mkVar 0 0 ACROSS 3.
Definition Q : Var := mkVar 2 0 ACROSS 3.

Definition apart : Crossword :=
  mkCrossword [P; Q] ["CAT"; "DOG"] (fun _ _ => None) (fun _ => []).

End Examples.

Import Examples.
(* ------------------------------------------------------------------ *)
(** * Properties *)

(* ------------------------------------------------------------------ *)
(** ** Dicts, sets and lists *)

Section DictFacts.
Context {K V : Type} `{EqDec K}.
Implicit Types (k : K) (v : V) (d : dict K V).

Lemma dict_mem_In k d : Dict.mem k d = true <-> In k (Dict.keys d).
Proof.
  induction d as [|[k' v'] d IH]; simpl.
  - split; [discriminate | tauto].
  - destruct (eq_dec k k') as [->|Hne].
    + tauto.
    + rewrite IH. split; [tauto|]. intros [Heq|Hin]; [congruence|assumption].
Qed.

Lemma dict_mem_false k d : Dict.mem k d = false <-> ~ In k (Dict.keys d).
Proof.
  rewrite <- dict_mem_In. destruct (Dict.mem k d); split; congruence.
Qed.

Lemma dict_get_In k v d : Dict.get k d = Ok v -> In (k, v) d.
Proof.
  induction d as [|[k' v'] d IH]; simpl; [discriminate|].
  destruct (eq_dec k k') as [->|Hne]; intros Hg.
  - left. congruence.
  - right. auto.
Qed.

Lemma dict_get_mem k v d : Dict.get k d = Ok v -> Dict.mem k d = true.
Proof.
  intros Hg. apply dict_mem_In. apply dict_get_In in Hg.
  apply (in_map fst) in Hg. exact Hg.
Qed.

Lemma dict_mem_get k d : Dict.mem k d = true -> exists v, Dict.get k d = Ok v.
Proof.
  induction d as [|[k' v'] d IH]; simpl; [discriminate|].
  destruct (eq_dec k k'); eauto.
Qed.

Lemma dict_get_set_same k v d : Dict.get k (Dict.set k v d) = Ok v.
Proof.
  induction d as [|[k' v'] d IH]; simpl.
  - destruct (eq_dec k k); congruence.
  - destruct (eq_dec k k') as [->|Hne]; simpl.
    + destruct (eq_dec k' k'); congruence.
    + destruct (eq_dec k k'); congruence.
Qed.

Lemma dict_get_set_other k k' v d :
  k' <> k -> Dict.get k' (Dict.set k v d) = Dict.get k' d.
Proof.
  intros Hne. induction d as [|[k0 v0] d IH]; simpl.
  - destruct (eq_dec k' k); congruence.
  - destruct (eq_dec k k0) as [->|Hne0]; simpl.
    + destruct (eq_dec k' k0); congruence.
    + destruct (eq_dec k' k0); congruence.
Qed.

Lemma dict_set_set k v1 v2 d :
  Dict.set k v2 (Dict.set k v1 d) = Dict.set k v2 d.
Proof.
  induction d as [|[k0 v0] d IH]; simpl.
  - destruct (eq_dec k k); congruence.
  - destruct (eq_dec k k0) as [->|Hne]; simpl.
    + destruct (eq_dec k0 k0); congruence.
    + destruct (eq_dec k k0); congruence.
Qed.

Lemma dict_set_get_id k v d : Dict.get k d = Ok v -> Dict.set k v d = d.
Proof.
  induction d as [|[k0 v0] d IH]; simpl; [discriminate|].
  destruct (eq_dec k k0) as [->|Hne]; intros Hg.
  - congruence.
  - f_equal. auto.
Qed.

Lemma dict_keys_set k v d :
  Dict.mem k d = true -> Dict.keys (Dict.set k v d) = Dict.keys d.
Proof.
  induction d as [|[k0 v0] d IH]; simpl; [discriminate|].
  destruct (eq_dec k k0) as [->|Hne]; simpl; intros Hm.
  - reflexivity.
  - f_equal. auto.
Qed.

Lemma dict_keys_set_new k v d :
  Dict.mem k d = false -> Dict.set k v d = d ++ [(k, v)].
Proof.
  induction d as [|[k0 v0] d IH]; simpl; [reflexivity|].
  destruct (eq_dec k k0) as [->|Hne]; [discriminate|].
  intros Hm. f_equal. auto.
Qed.

Lemma dict_get_app_notin k d1 d2 :
  ~ In k (Dict.keys d1) -> Dict.get k (d1 ++ d2) = Dict.get k d2.
Proof.
  induction d1 as [|[k0 v0] d1 IH]; simpl; [reflexivity|].
  intros Hn. destruct (eq_dec k k0) as [->|Hne]; [tauto|]. apply IH. tauto.
Qed.

Lemma dict_set_app_notin k v d1 d2 :
  ~ In k (Dict.keys d1) -> Dict.set k v (d1 ++ d2) = d1 ++ Dict.set k v d2.
Proof.
  induction d1 as [|[k0 v0] d1 IH]; simpl; [reflexivity|].
  intros Hn. destruct (eq_dec k k0) as [->|Hne]; [tauto|].
  f_equal. apply IH. tauto.
Qed.

Lemma dict_set_head k v0 v d : Dict.set k v ((k, v0) :: d) = (k, v) :: d.
Proof. simpl. destruct (eq_dec k k); congruence. Qed.

Lemma dict_get_head k v d : Dict.get k ((k, v) :: d) = Ok v.
Proof. simpl. destruct (eq_dec k k); congruence. Qed.

Lemma dict_set_keys_In (k k' : K) (v : V) (d : dict K V) :
  In k' (Dict.keys (Dict.set k v d)) <-> k' = k \/ In k' (Dict.keys d).
Proof.
  induction d as [|[k0 v0] d IH]; simpl.
  - split; intros [Heq|[]]; auto.
  - destruct (eq_dec k k0) as [->|Hne]; simpl.
    + split; [tauto|]. intros [->|Hin]; tauto.
    + rewrite IH. split; [tauto|]. intros [->|[Heq|Hin]]; tauto.
Qed.

Lemma dict_mem_set (k k' : K) (v : V) (d : dict K V) :
  Dict.mem k' (Dict.set k v d) = eqb_of k' k || Dict.mem k' d.
Proof.
  apply eq_iff_eq_true. rewrite orb_true_iff, !dict_mem_In, dict_set_keys_In.
  unfold eqb_of. destruct (eq_dec k' k); split;
    try tauto; intros [Hd|Hin]; auto; discriminate.
Qed.

Lemma dict_del_set_new (k : K) (v : V) (d : dict K V) :
  Dict.mem k d = false -> Dict.del k (Dict.set k v d) = Ok d.
Proof.
  induction d as [|[k0 v0] d IH]; simpl.
  - destruct (eq_dec k k); [reflexivity|congruence].
  - destruct (eq_dec k k0) as [->|Hne]; [discriminate|].
    intros Hm. simpl. destruct (eq_dec k k0); [contradiction|].
    rewrite (IH Hm). reflexivity.
Qed.

Lemma dict_keys_In_pair (k : K) (d : dict K V) :
  In k (Dict.keys d) <-> exists v, In (k, v) d.
Proof.
  unfold Dict.keys. rewrite in_map_iff. split.
  - intros ([k' v] & <- & Hin). exists v. exact Hin.
  - intros (v & Hin). exists (k, v). auto.
Qed.

End DictFacts.

Lemma list_mem_In w l : list_mem w l = true <-> In w l.
Proof.
  unfold list_mem. rewrite existsb_exists. split.
  - intros (v & Hin & Heq). apply String.eqb_eq in Heq. congruence.
  - intros Hin. exists w. split; [assumption|apply String.eqb_refl].
Qed.

Lemma list_mem_false w l : list_mem w l = false <-> ~ In w l.
Proof.
  rewrite <- list_mem_In. destruct (list_mem w l); split; congruence.
Qed.

Lemma pyset_remove_member w s :
  In w s -> PySet.remove w s = Ok (filter (fun v => negb (String.eqb v w)) s).
Proof.
  intros Hin. unfold PySet.remove.
  replace (PySet.mem w s) with true; [reflexivity|].
  symmetry. apply (list_mem_In w s). exact Hin.
Qed.

(** Pruning loop shared by node consistency and revise. *)
Lemma filter_filter_ext (f g h : string -> bool) (l : list string) :
  (forall w, In w l -> f w && g w = h w) ->
  filter f (filter g l) = filter h l.
Proof.
  induction l as [|x l IH]; simpl; intros Hext; [reflexivity|].
  assert (Hx := Hext x (or_introl eq_refl)).
  destruct (g x); simpl.
  - rewrite andb_true_r in Hx. rewrite Hx. destruct (h x); rewrite IH; auto.
  - rewrite andb_false_r in Hx. rewrite <- Hx. auto.
Qed.

Lemma filter_all (f : string -> bool) (l : list string) :
  (forall w, In w l -> f w = true) -> filter f l = l.
Proof.
  induction l as [|x l IH]; simpl; intros Hall; [reflexivity|].
  rewrite (Hall x (or_introl eq_refl)). f_equal. auto.
Qed.

Lemma pyset_eqb_filter (f : string -> bool) (s : pyset) :
  PySet.eqb s (filter f s) = forallb f s.
Proof.
  unfold PySet.eqb.
  replace (forallb (fun w => PySet.mem w s) (filter f s)) with true.
  - rewrite andb_true_r. apply eq_iff_eq_true.
    rewrite !forallb_forall. split; intros Hall w Hw.
    + specialize (Hall w Hw). apply (list_mem_In w (filter f s)) in Hall.
      apply filter_In in Hall. tauto.
    + apply (list_mem_In w (filter f s)). apply filter_In. auto.
  - symmetry. apply forallb_forall. intros w Hw. apply (list_mem_In w s).
    apply filter_In in Hw. tauto.
Qed.

Lemma get_in_range : forall (w : string) (k : nat),
  k < String.length w -> exists ch, String.get k w = Some ch.
Proof.
  induction w as [|ch0 w IH]; intros k Hk; simpl in *; [lia|].
  destruct k as [|k]; [eauto|]. apply IH. lia.
Qed.

Lemma char_at_in_range (w : string) (k : nat) :
  k < String.length w -> exists ch, char_at w k = Ok ch /\ String.get k w = Some ch.
Proof.
  intros Hk. destruct (get_in_range w k Hk) as [ch Hch].
  exists ch. unfold char_at. rewrite Hch. auto.
Qed.

Lemma agreeb_agree a b w v : agreeb a b w v = true <-> agree a b w v.
Proof.
  unfold agreeb, agree. split.
  - destruct (String.get a w) as [cw|]; [|discriminate].
    destruct (String.get b v) as [cv|]; [|discriminate].
    intros Heq. apply Ascii.eqb_eq in Heq. subst. eauto.
  - intros (ch & -> & ->). apply Ascii.eqb_refl.
Qed.

Lemma supported_spec a b dy w :
  supported a b dy w = true <-> exists v, In v dy /\ agree a b w v.
Proof.
  unfold supported. rewrite existsb_exists.
  split; intros (v & Hin & Hag); exists v; split; auto; apply agreeb_agree; auto.
Qed.

(* ------------------------------------------------------------------ *)
(** ** The pruning loop *)

Lemma enforce_values_prune_loop var copy d :
  enforce_values var copy d = prune_loop (fun w => negb (fits var w)) var copy d.
Proof.
  revert d. induction copy as [|value rest IH]; intros d; simpl; [reflexivity|].
  unfold fits at 1. destruct (String.length value =? var_length var); simpl.
  - apply IH.
  - destruct (Dict.get var d) as [s|e]; simpl; [|reflexivity].
    destruct (PySet.remove value s) as [s'|e]; simpl; [|reflexivity].
    apply IH.
Qed.

Lemma revise_prune_prune_loop x copy removable d :
  revise_prune x copy removable d
  = prune_loop (fun w => negb (list_mem w removable)) x copy d.
Proof.
  revert d. induction copy as [|value rest IH]; intros d; simpl; [reflexivity|].
  destruct (list_mem value removable); simpl.
  - apply IH.
  - destruct (Dict.get x d) as [s|e]; simpl; [|reflexivity].
    destruct (PySet.remove value s) as [s'|e]; simpl; [|reflexivity].
    apply IH.
Qed.

(** With [cur] the domain of [var], and [rest] words of it still to visit,
    the loop ends with the bad words of [rest] removed from [cur]; no
    [remove] fails, as no word comes twice. *)
Lemma prune_loop_spec bad var : forall (rest : list string) (cur : pyset) (d : Domains),
  Dict.get var d = Ok cur -> NoDup rest -> incl rest cur ->
  prune_loop bad var rest d
  = Ok (Dict.set var (filter (fun w => negb (bad w && list_mem w rest)) cur) d).
Proof.
  induction rest as [|value rest IH]; intros cur d Hget Hnd Hincl; simpl.
  - rewrite filter_all.
    + rewrite (dict_set_get_id _ _ _ Hget). reflexivity.
    + intros w _. rewrite andb_false_r. reflexivity.
  - inversion Hnd as [|? ? Hnotin Hnd']; subst.
    destruct (bad value) eqn:Hbad.
    + rewrite Hget. simpl.
      rewrite pyset_remove_member by (apply Hincl; left; reflexivity). simpl.
      rewrite (IH (filter (fun v => negb (String.eqb v value)) cur)).
      * rewrite dict_set_set. do 2 f_equal.
        apply filter_filter_ext. intros w Hw. simpl.
        destruct (String.eqb w value) eqn:E; simpl.
        -- apply String.eqb_eq in E. subst w. rewrite Hbad. simpl.
           apply andb_false_r.
        -- apply andb_true_r.
      * apply dict_get_set_same.
      * exact Hnd'.
      * intros w Hw. apply filter_In. split.
        -- apply Hincl. right. exact Hw.
        -- apply negb_true_iff. apply String.eqb_neq. intros ->. tauto.
    + rewrite (IH cur d Hget Hnd').
      * do 2 f_equal. apply filter_ext_in. intros w Hw. simpl.
        destruct (String.eqb_spec w value) as [->|Hne]; [|reflexivity].
        rewrite Hbad. reflexivity.
      * intros w Hw. apply Hincl. right. exact Hw.
Qed.

Lemma prune_loop_copy bad var (s : pyset) (d : Domains) :
  Dict.get var d = Ok s -> NoDup s ->
  prune_loop bad var s d = Ok (Dict.set var (filter (fun w => negb (bad w)) s) d).
Proof.
  intros Hget Hnd. rewrite (prune_loop_spec bad var _ _ _ Hget Hnd (incl_refl s)).
  do 2 f_equal. apply filter_ext_in. intros w Hw.
  replace (list_mem w s) with true; [rewrite andb_true_r; reflexivity|].
  symmetry. apply list_mem_In. exact Hw.
Qed.

(** The loop writes the domain of [var] and nothing else. *)
Lemma prune_loop_frame bad x : forall (copy : list string) (d d' : Domains),
  prune_loop bad x copy d = Ok d' ->
  Dict.keys d' = Dict.keys d /\
  forall z, z <> x -> Dict.get z d' = Dict.get z d.
Proof.
  induction copy as [|value rest IH]; intros d d' Hrun; simpl in Hrun.
  - inversion Hrun; subst. auto.
  - destruct (bad value).
    + destruct (Dict.get x d) as [s|e] eqn:Hget; simpl in Hrun; [|discriminate].
      destruct (PySet.remove value s) as [s'|e]; simpl in Hrun; [|discriminate].
      destruct (IH _ _ Hrun) as [Hk Hg]. split.
      * rewrite Hk. apply dict_keys_set. apply (dict_get_mem _ _ _ Hget).
      * intros z Hz. rewrite (Hg z Hz). apply dict_get_set_other. exact Hz.
    + apply IH. exact Hrun.
Qed.

(* ------------------------------------------------------------------ *)
(** ** Node consistency *)

Lemma node_pruned_keys d : Dict.keys (node_pruned d) = Dict.keys d.
Proof.
  unfold node_pruned, Dict.keys. rewrite map_map. reflexivity.
Qed.

(** The outer loop, with the slots of [done] visited and those of [todo]
    to come. *)
Lemma enforce_vars_split : forall todo done,
  NoDup (Dict.keys (done ++ todo)) ->
  Forall (fun kv => NoDup (snd kv)) todo ->
  enforce_vars (Dict.keys todo) (done ++ todo) = Ok (done ++ node_pruned todo).
Proof.
  induction todo as [|[var s] todo IH]; intros done Hnd Hsets; simpl.
  - reflexivity.
  - assert (Hnotin : ~ In var (Dict.keys done)).
    { unfold Dict.keys in *. rewrite map_app in Hnd. simpl in Hnd.
      apply NoDup_remove_2 in Hnd. intros Hin. apply Hnd. apply in_or_app. tauto. }
    inversion Hsets as [|? ? Hs Hsets']; subst. simpl in Hs.
    assert (Hget : Dict.get var (done ++ (var, s) :: todo) = Ok s).
    { rewrite dict_get_app_notin by exact Hnotin. apply dict_get_head. }
    rewrite Hget. simpl.
    rewrite enforce_values_prune_loop, (prune_loop_copy _ _ _ _ Hget Hs). simpl.
    rewrite dict_set_app_notin by exact Hnotin. rewrite dict_set_head.
    replace (done ++ (var, filter (fun w => negb (negb (fits var w))) s) :: todo)
      with ((done ++ [(var, filter (fits var) s)]) ++ todo).
    + rewrite IH.
      * rewrite <- app_assoc. reflexivity.
      * rewrite <- app_assoc. simpl. unfold Dict.keys in *.
        rewrite map_app in *. exact Hnd.
      * exact Hsets'.
    + rewrite <- app_assoc. simpl. do 3 f_equal. apply filter_ext.
      intros w. rewrite negb_involutive. reflexivity.
Qed.

Lemma enforce_node_consistency_pruned d :
  domains_wf d -> enforce_node_consistency d = Ok (node_pruned d).
Proof.
  intros [Hk Hs]. unfold enforce_node_consistency.
  apply (enforce_vars_split d [] Hk Hs).
Qed.

Lemma node_pruned_wf d : domains_wf d -> domains_wf (node_pruned d).
Proof.
  intros [Hk Hs]. split.
  - rewrite node_pruned_keys. exact Hk.
  - unfold node_pruned. apply Forall_map. simpl.
    eapply Forall_impl; [|exact Hs]. intros kv. apply NoDup_filter.
Qed.

Lemma node_pruned_idem d : node_pruned (node_pruned d) = node_pruned d.
Proof.
  unfold node_pruned. rewrite map_map. apply map_ext. intros [var s]. simpl.
  f_equal. apply filter_all. intros w Hw. apply filter_In in Hw. tauto.
Qed.

(** C6.  On every well-formed store, [enforce_node_consistency] returns
    the store [node_pruned d]: in every domain precisely the words whose
    length differs from the slot's are gone, and nothing else has changed
    (same slots, same order, no other word removed).  A second run on the
    result returns that result: enforcement is idempotent. *)
Theorem enforce_node_consistency_idempotent (d : Domains) :
  domains_wf d ->
  exists d1,
    enforce_node_consistency d = Ok d1 /\
    d1 = node_pruned d /\
    enforce_node_consistency d1 = Ok d1.
Proof.
  intros Hwf. exists (node_pruned d). split; [|split].
  - apply enforce_node_consistency_pruned. exact Hwf.
  - reflexivity.
  - rewrite enforce_node_consistency_pruned by (apply node_pruned_wf; exact Hwf).
    rewrite node_pruned_idem. reflexivity.
Qed.

Lemma enforce_node_consistency_idempotent_witness :
  exists d1,
    enforce_node_consistency (init_domains corner) = Ok d1 /\
    d1 = node_pruned (init_domains corner) /\
    enforce_node_consistency d1 = Ok d1.
Proof.
  apply (enforce_node_consistency_idempotent (init_domains corner)).
  split; simpl.
  - repeat constructor; simpl; intuition discriminate.
  - repeat constructor; simpl; intuition discriminate.
Defined.

(* ------------------------------------------------------------------ *)
(** ** [revise] *)

(** The inner loop appends [xvalue] once, when a word of [ys] agrees with
    it and it is not listed yet. *)
Lemma revise_inner_spec a b xvalue : forall (ys removable : list string),
  a < String.length xvalue -> in_range b ys ->
  revise_inner a b xvalue ys removable
  = Ok (if supported a b ys xvalue && negb (list_mem xvalue removable)
        then removable ++ [xvalue] else removable).
Proof.
  intros ys removable Ha. revert removable.
  destruct (char_at_in_range xvalue a Ha) as (cx & Hcx & Hgx).
  induction ys as [|yvalue rest IH]; intros removable Hb; simpl.
  - reflexivity.
  - inversion Hb as [|? ? Hy Hb']; subst.
    destruct (char_at_in_range yvalue b Hy) as (cy & Hcy & Hgy).
    rewrite Hcx, Hcy. simpl. unfold agreeb at 1. rewrite Hgx, Hgy.
    destruct (Ascii.eqb cx cy); simpl.
    + destruct (list_mem xvalue removable) eqn:Hmem; simpl.
      * rewrite (IH removable Hb'), Hmem, andb_false_r. reflexivity.
      * rewrite (IH (removable ++ [xvalue]) Hb').
        replace (list_mem xvalue (removable ++ [xvalue])) with true.
        -- rewrite andb_false_r. reflexivity.
        -- symmetry. apply list_mem_In. apply in_or_app. right. left. reflexivity.
    + apply (IH removable Hb').
Qed.

(** The list [removable] that the two loops build holds the words of
    [xs] that have a support in the domain of [y] (the source's name for
    it notwithstanding). *)
Lemma revise_outer_spec a b (d : Domains) y (dy : pyset) :
  Dict.get y d = Ok dy -> in_range b dy ->
  forall (xs removable : list string),
  in_range a xs ->
  exists removable',
    revise_outer a b d y xs removable = Ok removable' /\
    forall w, In w removable' <->
              In w removable \/ (In w xs /\ supported a b dy w = true).
Proof.
  intros Hy Hb. induction xs as [|xvalue rest IH]; intros removable Ha; simpl.
  - exists removable. split; [reflexivity|]. intros w. tauto.
  - inversion Ha as [|? ? Hx Ha']; subst.
    rewrite Hy. simpl. rewrite (revise_inner_spec a b xvalue dy removable Hx Hb). simpl.
    destruct (IH (if supported a b dy xvalue && negb (list_mem xvalue removable)
                  then removable ++ [xvalue] else removable) Ha')
      as (removable' & Hrun & Hmem).
    exists removable'. split; [exact Hrun|].
    intros w. rewrite Hmem. clear Hmem Hrun.
    destruct (supported a b dy xvalue) eqn:Hs; simpl.
    + destruct (list_mem xvalue removable) eqn:Hm; simpl.
      * apply list_mem_In in Hm. split; [tauto|].
        intros [H|[[<-|H] H']]; tauto.
      * rewrite in_app_iff. simpl. split.
        -- intros [[H|[<-|[]]]|H]; tauto.
        -- intros [H|[[<-|H] H']]; tauto.
    + split; [tauto|]. intros [H|[[<-|H] H']]; try tauto. congruence.
Qed.

(** What [revise] computes when no index is out of range. *)
Lemma revise_overlap (c : Crossword) (x y : Var) (d : Domains) a b
      (dx dy : pyset) :
  overlaps c x y = Some (a, b) ->
  Dict.get x d = Ok dx -> Dict.get y d = Ok dy ->
  NoDup dx -> in_range a dx -> in_range b dy ->
  revise c x y d
  = Ok (negb (forallb (supported a b dy) dx),
        Dict.set x (filter (supported a b dy) dx) d).
Proof.
  intros Hov Hx Hy Hnd Ha Hb. unfold revise. rewrite Hov, Hx. simpl.
  destruct (revise_outer_spec a b d y dy Hy Hb dx [] Ha) as (removable & Hrun & Hmem).
  rewrite Hrun. simpl.
  rewrite revise_prune_prune_loop, (prune_loop_copy _ _ _ _ Hx Hnd). simpl.
  rewrite dict_get_set_same. simpl.
  assert (Hf : filter (fun w => negb (negb (list_mem w removable))) dx
               = filter (supported a b dy) dx).
  { apply filter_ext_in. intros w Hw. rewrite negb_involutive.
    apply eq_iff_eq_true. rewrite list_mem_In, Hmem. simpl. tauto. }
  rewrite Hf, pyset_eqb_filter. reflexivity.
Qed.

Lemma revise_no_overlap (c : Crossword) (x y : Var) (d : Domains) :
  overlaps c x y = None -> revise c x y d = Ok (false, d).
Proof.
  intros Hov. unfold revise. rewrite Hov. reflexivity.
Qed.

(** C4.  For distinct slots [x] and [y]: with a defined overlap
    [(a, b)] (and the indices in range of the words of the two domains,
    as they are in a node-consistent store), [revise] returns, the words
    left in [domains[x]] are exactly those of the old domain for which
    some word [v] of [domains[y]] has [w[a] == v[b]] (so exactly the
    words without such a [v] were removed), and the boolean returned is
    true iff a word was removed; with no overlap, [revise] returns false
    and leaves the store as it is. *)
Theorem revise_spec (c : Crossword) (x y : Var) (d : Domains) :
  x <> y ->
  match overlaps c x y with
  | Some (a, b) =>
      forall dx dy : pyset,
        Dict.get x d = Ok dx -> Dict.get y d = Ok dy ->
        NoDup dx -> in_range a dx -> in_range b dy ->
        exists (revision : bool) (d' : Domains) (dx' : pyset),
          revise c x y d = Ok (revision, d') /\
          Dict.get x d' = Ok dx' /\
          (forall w, In w dx' <->
                     In w dx /\ exists v, In v dy /\ agree a b w v) /\
          (revision = true <-> exists w, In w dx /\ ~ In w dx')
  | None => revise c x y d = Ok (false, d)
  end.
Proof.
  intros _. destruct (overlaps c x y) as [[a b]|] eqn:Hov.
  - intros dx dy Hx Hy Hnd Ha Hb.
    exists (negb (forallb (supported a b dy) dx)),
           (Dict.set x (filter (supported a b dy) dx) d),
           (filter (supported a b dy) dx).
    split; [|split; [|split]].
    + apply (revise_overlap c x y d a b dx dy Hov Hx Hy Hnd Ha Hb).
    + apply dict_get_set_same.
    + intros w. rewrite filter_In, supported_spec. tauto.
    + rewrite negb_true_iff, <- not_true_iff_false, forallb_forall. split.
      * intros Hnot.
        destruct (existsb (fun w => negb (supported a b dy w)) dx) eqn:Hex.
        -- apply existsb_exists in Hex. destruct Hex as (w & Hw & Hns).
           exists w. split; [exact Hw|]. rewrite filter_In.
           apply negb_true_iff in Hns. intros [_ Hs]. congruence.
        -- exfalso. apply Hnot. intros w Hw.
           destruct (supported a b dy w) eqn:Hs; [reflexivity|].
           assert (Hex' : existsb (fun w => negb (supported a b dy w)) dx = true).
           { apply existsb_exists. exists w. rewrite Hs. auto. }
           congruence.
      * intros (w & Hw & Hnotin) Hall. apply Hnotin. apply filter_In. auto.
  - apply revise_no_overlap. exact Hov.
Qed.

Lemma revise_spec_witness :
  exists (revision : bool) (d' : Domains) (dx' : pyset),
    revise crossed A B [(A, ["CAT"; "DOG"]); (B, ["APE"])] = Ok (revision, d') /\
    Dict.get A d' = Ok dx' /\
    (forall w, In w dx' <->
               In w ["CAT"; "DOG"] /\ exists v, In v ["APE"] /\ agree 1 0 w v) /\
    (revision = true <-> exists w, In w ["CAT"; "DOG"] /\ ~ In w dx').
Proof.
  assert (Hne : A <> B) by discriminate.
  apply (revise_spec crossed A B [(A, ["CAT"; "DOG"]); (B, ["APE"])] Hne
           ["CAT"; "DOG"] ["APE"]).
  - reflexivity.
  - reflexivity.
  - repeat constructor; simpl; intuition discriminate.
  - repeat constructor.
  - repeat constructor.
Defined.

(** C5, as stated, fails: two stores that agree on every slot but [B]
    give different outcomes of [revise A B], in the words removed from
    the domain of [A] and in the boolean returned.  [revise] reads
    [domains[y]]. *)
Lemma revise_outcome_depends_on_y :
  (forall z, z <> B ->
     Dict.get z [(A, ["CAT"; "DOG"]); (B, ["APE"])]
     = Dict.get z [(A, ["CAT"; "DOG"]); (B, ["APE"; "OWL"])]) /\
  revise crossed A B [(A, ["CAT"; "DOG"]); (B, ["APE"])]
    = Ok (true, [(A, ["CAT"]); (B, ["APE"])]) /\
  revise crossed A B [(A, ["CAT"; "DOG"]); (B, ["APE"; "OWL"])]
    = Ok (false, [(A, ["CAT"; "DOG"]); (B, ["APE"; "OWL"])]).
Proof.
  split; [|split; reflexivity].
  intros z Hz. simpl. destruct (eq_dec z A); [reflexivity|].
  destruct (eq_dec z B); [contradiction|reflexivity].
Qed.

(** C5, amended.  [revise(x, y)] mutates [domains[x]] only: after a call
    that returns, the store has the same slots and the domain of every
    slot other than [x] (that of [y] among them, [y] being another slot)
    is exactly as it was before. *)
Theorem revise_frame (c : Crossword) (x y : Var) (d d' : Domains)
    (revision : bool) :
  revise c x y d = Ok (revision, d') ->
  Dict.keys d' = Dict.keys d /\
  forall z, z <> x -> Dict.get z d' = Dict.get z d.
Proof.
  unfold revise. destruct (overlaps c x y) as [[a b]|].
  - destruct (Dict.get x d) as [dx|e]; simpl; [|discriminate].
    destruct (revise_outer a b d y dx []) as [removable|e]; simpl; [|discriminate].
    rewrite revise_prune_prune_loop.
    destruct (prune_loop _ x dx d) as [d1|e] eqn:Hrun; simpl; [|discriminate].
    destruct (Dict.get x d1) as [s|e]; simpl; [|discriminate].
    intros Heq. inversion Heq; subst. apply (prune_loop_frame _ _ _ _ _ Hrun).
  - intros Heq. inversion Heq; subst. auto.
Qed.

Lemma revise_frame_witness :
  Dict.keys [(A, ["CAT"]); (B, ["APE"])]
  = Dict.keys [(A, ["CAT"; "DOG"]); (B, ["APE"])] /\
  forall z, z <> A ->
    Dict.get z [(A, ["CAT"]); (B, ["APE"])]
    = Dict.get z [(A, ["CAT"; "DOG"]); (B, ["APE"])].
Proof.
  apply (revise_frame crossed A B [(A, ["CAT"; "DOG"]); (B, ["APE"])]
           [(A, ["CAT"]); (B, ["APE"])] true).
  reflexivity.
Defined.

(* ------------------------------------------------------------------ *)
(** ** [ac3] *)

(** The loop condition is [not arclist]: a non-empty worklist ends the
    loop before its first iteration, an empty one enters the body, whose
    first statement pops from it. *)
Lemma ac3_loop_unfold fuel c (arclist : list Arc) (d : Domains) :
  ac3_loop (S fuel) c arclist d
  = match arclist with
    | [] => Raise IndexError
    | _ :: _ => Ok (true, d)
    end.
Proof. destruct arclist; reflexivity. Qed.

Lemma ac3_unfold c arcs (d : Domains) :
  ac3 c arcs d
  = match (match arcs with
           | Some (arc :: rest) => arc :: rest
           | _ => initial_arcs c d
           end) with
    | [] => Raise IndexError
    | _ :: _ => Ok (true, d)
    end.
Proof. unfold ac3, ac3_fuel. apply ac3_loop_unfold. Qed.

(** [ac3] returns true with the store untouched, or raises: it revises
    no arc and never reports failure, and the recursion bound plays no
    part. *)
Lemma ac3_outcome c arcs (d : Domains) :
  ac3 c arcs d = Ok (true, d) \/ ac3 c arcs d = Raise IndexError.
Proof.
  rewrite ac3_unfold.
  destruct (match arcs with Some (arc :: rest) => arc :: rest | _ => initial_arcs c d end);
    auto.
Qed.

Lemma ac3_never_false c arcs (d d' : Domains) : ac3 c arcs d <> Ok (false, d').
Proof.
  destruct (ac3_outcome c arcs d) as [H|H]; rewrite H; discriminate.
Qed.

Lemma initial_arcs_no_overlap c (d : Domains) :
  no_overlap c d -> initial_arcs c d = [].
Proof.
  intros Hno. unfold initial_arcs.
  assert (Hall : forall (l1 l2 : list Var), incl l1 (Dict.keys d) -> incl l2 (Dict.keys d) ->
    flat_map (fun a => flat_map (fun b =>
      if negb (eqb_of a b) then
        match overlaps c a b with Some _ => [(a, b)] | None => [] end
      else []) l2) l1 = []).
  { induction l1 as [|a l1 IH1]; intros l2 H1 H2; simpl; [reflexivity|].
    rewrite IH1.
    - rewrite app_nil_r.
      assert (Ha : In a (Dict.keys d)) by (apply H1; left; reflexivity).
      clear IH1 H1. induction l2 as [|b l2 IH2]; simpl; [reflexivity|].
      rewrite IH2 by (intros z Hz; apply H2; right; exact Hz).
      rewrite app_nil_r. unfold eqb_of. destruct (eq_dec a b) as [Heq|Hne]; simpl.
      + reflexivity.
      + rewrite (Hno a b Ha (H2 b (or_introl eq_refl)) Hne). reflexivity.
    - intros z Hz. apply H1. right. exact Hz.
    - exact H2. }
  apply Hall; apply incl_refl.
Qed.

(** C1 fails on the source.  On the puzzle [crossed], whose store is
    node-consistent from the start, [ac3] returns true and leaves the
    store unchanged, and that store is not arc-consistent: CAT in the
    domain of [A] has no word of the domain of [B] agreeing with it at
    the overlap. *)
Theorem ac3_true_not_arc_consistent :
  enforce_node_consistency (init_domains crossed) = Ok (init_domains crossed) /\
  ac3 crossed None (init_domains crossed) = Ok (true, init_domains crossed) /\
  ~ arc_consistent crossed (init_domains crossed).
Proof.
  split; [reflexivity|]. split; [reflexivity|].
  intros Hac.
  destruct (Hac A B 1 0 ["CAT"; "DOG"] ["CAT"; "DOG"] "CAT") as (v & Hv & Hag).
  - left. reflexivity.
  - reflexivity.
  - reflexivity.
  - reflexivity.
  - left. reflexivity.
  - destruct Hag as (ch & Hw & Hch). simpl in Hw. inversion Hw; subst.
    destruct Hv as [<-|[<-|[]]]; simpl in Hch; discriminate.
Qed.

(** C2 fails on the source.  On the puzzle [corner] node consistency
    empties the domain of the 4-letter slot, and [ac3], called with the
    default worklist, returns true. *)
Theorem ac3_true_with_empty_domain :
  enforce_node_consistency (init_domains corner)
    = Ok [(A3, ["CAT"; "DOG"]); (B4, [])] /\
  ac3 corner None [(A3, ["CAT"; "DOG"]); (B4, [])]
    = Ok (true, [(A3, ["CAT"; "DOG"]); (B4, [])]).
Proof.
  split; reflexivity.
Qed.

(** C10.  Called with no initial arcs ([None] or the empty list) on a
    store no two distinct slots of which overlap, [ac3] seeds an empty
    worklist and raises [IndexError] (the pop from the empty list): it
    returns no boolean. *)
Theorem ac3_no_arcs_raises (c : Crossword) (d : Domains)
    (arcs : option (list Arc)) :
  arcs = None \/ arcs = Some [] ->
  no_overlap c d ->
  initial_arcs c d = [] /\ ac3 c arcs d = Raise IndexError.
Proof.
  intros Harcs Hno. pose proof (initial_arcs_no_overlap c d Hno) as Hinit.
  split; [exact Hinit|].
  rewrite ac3_unfold. destruct Harcs as [-> | ->]; rewrite Hinit; reflexivity.
Qed.

Lemma ac3_no_arcs_raises_witness :
  initial_arcs apart (init_domains apart) = [] /\
  ac3 apart None (init_domains apart) = Raise IndexError.
Proof.
  apply (ac3_no_arcs_raises apart (init_domains apart) None).
  - left. reflexivity.
  - intros a b _ _ _. reflexivity.
Defined.

(* ------------------------------------------------------------------ *)
(** ** [consistent] *)

Section Restrict.
Variable keep : Var -> bool.
Variable c : Crossword.
Variable assignment : Assignment.

Lemma restrict_keys :
  Dict.keys (restrict keep assignment) = filter keep (Dict.keys assignment).
Proof.
  unfold restrict. induction assignment as [|[k w] asg IH]; simpl; [reflexivity|].
  destruct (keep k); simpl; rewrite IH; reflexivity.
Qed.

Lemma restrict_get k :
  keep k = true ->
  Dict.get k (restrict keep assignment) = Dict.get k assignment.
Proof.
  intros Hk. unfold restrict.
  induction assignment as [|[k' w] asg IH]; simpl; [reflexivity|].
  destruct (keep k') eqn:Hk'; simpl.
  - destruct (eq_dec k k'); [reflexivity|exact IH].
  - destruct (eq_dec k k') as [->|Hne]; [congruence|exact IH].
Qed.

Lemma restrict_mem k :
  Dict.mem k (restrict keep assignment) = keep k && Dict.mem k assignment.
Proof.
  unfold restrict.
  induction assignment as [|[k' w] asg IH]; simpl.
  - rewrite andb_false_r. reflexivity.
  - destruct (keep k') eqn:Hk'; simpl.
    + destruct (eq_dec k k') as [->|Hne].
      * rewrite Hk'. reflexivity.
      * exact IH.
    + destruct (eq_dec k k') as [->|Hne].
      * rewrite IH, Hk'. reflexivity.
      * exact IH.
Qed.

Lemma consistent_neighbors_restrict var : forall ns,
  keep var = true ->
  consistent_neighbors c assignment var ns = Ok true ->
  consistent_neighbors c (restrict keep assignment) var ns = Ok true.
Proof.
  intros ns Hvar. induction ns as [|n ns IH]; simpl; [reflexivity|].
  destruct (overlaps c var n) as [[a b]|]; [|exact IH].
  rewrite restrict_mem.
  destruct (keep n) eqn:Hn; simpl.
  - destruct (Dict.mem n assignment); [|exact IH].
    rewrite (restrict_get var Hvar), (restrict_get n Hn).
    destruct (Dict.get var assignment) as [wv|e]; simpl; [|discriminate].
    destruct (char_at wv a) as [cv|e]; simpl; [|discriminate].
    destruct (Dict.get n assignment) as [wn|e]; simpl; [|discriminate].
    destruct (char_at wn b) as [cn|e]; simpl; [|discriminate].
    destruct (Ascii.eqb cv cn); simpl; [exact IH|discriminate].
  - destruct (Dict.mem n assignment); [|exact IH].
    destruct (Dict.get var assignment) as [wv|e]; simpl; [|discriminate].
    destruct (char_at wv a) as [cv|e]; simpl; [|discriminate].
    destruct (Dict.get n assignment) as [wn|e]; simpl; [|discriminate].
    destruct (char_at wn b) as [cn|e]; simpl; [|discriminate].
    destruct (Ascii.eqb cv cn); simpl; [exact IH|discriminate].
Qed.

Lemma consistent_vars_restrict : forall vars values values',
  incl values' values ->
  consistent_vars c assignment vars values = Ok true ->
  consistent_vars c (restrict keep assignment) (filter keep vars) values'
  = Ok true.
Proof.
  induction vars as [|var rest IH]; intros values values' Hincl; simpl;
    [reflexivity|].
  destruct (Dict.get var assignment) as [w|e] eqn:Hget; simpl; [|discriminate].
  destruct (Nat.eqb (var_length var) (String.length w)) eqn:Hlen; simpl; [|discriminate].
  destruct (list_mem w values) eqn:Hmem; [discriminate|].
  destruct (consistent_neighbors c assignment var (neighbors c var))
    as [[|]|e] eqn:Hnb; simpl; try discriminate.
  intros Hrest. destruct (keep var) eqn:Hkeep; simpl.
  - rewrite (restrict_get var Hkeep), Hget. simpl. rewrite Hlen. simpl.
    replace (list_mem w values') with false.
    + rewrite (consistent_neighbors_restrict var _ Hkeep Hnb). simpl.
      apply (IH (values ++ [w])); [|exact Hrest].
      intros z Hz. apply in_app_iff in Hz. apply in_app_iff.
      destruct Hz as [Hz|Hz]; [left; apply Hincl; exact Hz|right; exact Hz].
    + symmetry. apply list_mem_false. intros Hin.
      apply list_mem_false in Hmem. apply Hmem. apply Hincl. exact Hin.
  - apply (IH (values ++ [w])); [|exact Hrest].
    intros z Hz. apply in_app_iff. left. apply Hincl. exact Hz.
Qed.

End Restrict.

(** C8.  [consistent] is monotone under restriction: when
    [consistent] holds of an assignment (complete or not), it holds of
    every sub-assignment obtained by removing slots from it. *)
Theorem consistent_restrict (c : Crossword) (assignment : Assignment)
    (keep : Var -> bool) :
  consistent c assignment = Ok true ->
  consistent c (restrict keep assignment) = Ok true.
Proof.
  unfold consistent. intros Hcons. rewrite restrict_keys.
  apply (consistent_vars_restrict keep c assignment _ [] []);
    [apply incl_refl|exact Hcons].
Qed.

Lemma consistent_restrict_witness :
  consistent crossed (restrict (fun var => negb (eqb_of var B))
                        [(A, "CAT"); (B, "APE")]) = Ok true.
Proof.
  apply (consistent_restrict crossed [(A, "CAT"); (B, "APE")]). reflexivity.
Defined.

Lemma assignment_complete_assigns_all (d : Domains) (assignment : Assignment) :
  assignment_complete d assignment = true <-> assigns_all d assignment.
Proof.
  unfold assignment_complete, assigns_all. rewrite forallb_forall.
  split; intros Hall var Hvar.
  - apply dict_mem_get. apply Hall. exact Hvar.
  - destruct (Hall var Hvar) as (w & Hget). apply (dict_get_mem _ _ _ Hget).
Qed.

Section ConsistentInv.
Variable c : Crossword.
Variable assignment : Assignment.

Lemma consistent_neighbors_inv var wv : forall ns,
  Dict.get var assignment = Ok wv ->
  consistent_neighbors c assignment var ns = Ok true ->
  forall n a b wn,
    In n ns -> overlaps c var n = Some (a, b) ->
    Dict.get n assignment = Ok wn -> agree a b wv wn.
Proof.
  intros ns Hvar. induction ns as [|n0 ns IH]; simpl; intros Hrun n a b wn Hin Hov Hn.
  - destruct Hin.
  - destruct Hin as [->|Hin].
    + rewrite Hov, (dict_get_mem _ _ _ Hn), Hvar, Hn in Hrun. simpl in Hrun.
      unfold agree, char_at in *.
      destruct (String.get a wv) as [cv|]; simpl in Hrun; [|discriminate].
      destruct (String.get b wn) as [cn|]; simpl in Hrun; [|discriminate].
      destruct (Ascii.eqb cv cn) eqn:Heq; simpl in Hrun; [|discriminate].
      apply Ascii.eqb_eq in Heq. subst. eauto.
    + apply IH with (n := n); auto.
      destruct (overlaps c var n0) as [[a0 b0]|]; [|exact Hrun].
      destruct (Dict.mem n0 assignment); [|exact Hrun].
      destruct (Dict.get var assignment) as [wv'|e]; simpl in Hrun; [|discriminate].
      destruct (char_at wv' a0) as [cv|e]; simpl in Hrun; [|discriminate].
      destruct (Dict.get n0 assignment) as [wn0|e]; simpl in Hrun; [|discriminate].
      destruct (char_at wn0 b0) as [cn|e]; simpl in Hrun; [|discriminate].
      destruct (Ascii.eqb cv cn); simpl in Hrun; [exact Hrun|discriminate].
Qed.

Lemma consistent_vars_inv : forall vars values,
  consistent_vars c assignment vars values = Ok true ->
  exists ws,
    Forall2 (fun var w => Dict.get var assignment = Ok w) vars ws /\
    NoDup ws /\ (forall w, In w ws -> ~ In w values) /\
    Forall (fun var =>
              exists w, Dict.get var assignment = Ok w /\
                var_length var = String.length w /\
                consistent_neighbors c assignment var (neighbors c var)
                = Ok true) vars.
Proof.
  induction vars as [|var rest IH]; intros values; simpl.
  - intros _. exists []. repeat split; try constructor. intros w [].
  - destruct (Dict.get var assignment) as [w|e] eqn:Hget; simpl; [|discriminate].
    destruct (Nat.eqb_spec (var_length var) (String.length w)) as [Hlen|Hlen];
      simpl; [|discriminate].
    destruct (list_mem w values) eqn:Hmem; [discriminate|].
    destruct (consistent_neighbors c assignment var (neighbors c var))
      as [[|]|e] eqn:Hnb; simpl; try discriminate.
    intros Hrest. destruct (IH _ Hrest) as (ws & Hf2 & Hnd & Hnew & Hall).
    exists (w :: ws). split; [|split; [|split]].
    + constructor; assumption.
    + constructor; [|exact Hnd]. intros Hin. apply (Hnew w Hin).
      apply in_or_app. right. left. reflexivity.
    + intros w' [<-|Hin].
      * apply list_mem_false. exact Hmem.
      * intros Hv. apply (Hnew w' Hin). apply in_or_app. left. exact Hv.
    + constructor; [|exact Hall]. exists w. auto.
Qed.

Lemma forall2_nodup_inj (vars : list Var) (ws : list string) :
  Forall2 (fun var w => Dict.get var assignment = Ok w) vars ws ->
  NoDup ws ->
  forall var1 var2 w, In var1 vars -> In var2 vars ->
    Dict.get var1 assignment = Ok w -> Dict.get var2 assignment = Ok w ->
    var1 = var2.
Proof.
  induction 1 as [|var w0 vars ws Hget Hf2 IH]; intros Hnd var1 var2 w H1 H2 G1 G2.
  - destruct H1.
  - inversion Hnd as [|? ? Hnotin Hnd']; subst.
    assert (Hlater : forall v, In v vars -> Dict.get v assignment = Ok w0 -> False).
    { intros v Hv Gv. apply Hnotin. clear - Hf2 Hv Gv.
      induction Hf2 as [|v' w' vars ws Hg Hf2 IH]; [destruct Hv|].
      destruct Hv as [->|Hv].
      - left. congruence.
      - right. apply IH. exact Hv. }
    destruct H1 as [->|H1], H2 as [->|H2].
    + reflexivity.
    + exfalso. apply (Hlater var2 H2). congruence.
    + exfalso. apply (Hlater var1 H1). congruence.
    + apply (IH Hnd' var1 var2 w H1 H2 G1 G2).
Qed.

(** What [consistent] checks: lengths, distinct words, agreement at the
    overlaps. *)
Lemma consistent_well_filled :
  consistent c assignment = Ok true -> well_filled c assignment.
Proof.
  unfold consistent. intros Hrun.
  destruct (consistent_vars_inv _ _ Hrun) as (ws & Hf2 & Hnd & _ & Hall).
  rewrite Forall_forall in Hall.
  assert (Hkey : forall var w, Dict.get var assignment = Ok w ->
                               In var (Dict.keys assignment)).
  { intros var w Hget. apply dict_mem_In. apply (dict_get_mem _ _ _ Hget). }
  split; [|split].
  - intros var w Hget. destruct (Hall var (Hkey _ _ Hget)) as (w' & Hget' & Hlen & _).
    congruence.
  - intros var1 var2 w G1 G2.
    apply (forall2_nodup_inj _ _ Hf2 Hnd var1 var2 w); eauto.
  - intros var n a b wv wn Hn Hov Hvar Hget.
    destruct (Hall var (Hkey _ _ Hvar)) as (w' & Hget' & _ & Hnb).
    apply (consistent_neighbors_inv var wv _ Hvar Hnb n a b wn Hn Hov Hget).
Qed.

End ConsistentInv.

(* ------------------------------------------------------------------ *)
(** ** [sorted] *)

Section SortedFacts.
Context {A : Type} (key : A -> nat) (reverse : bool).

Lemma precedes_total x y :
  precedes key reverse x y = false -> precedes key reverse y x = true.
Proof.
  unfold precedes. destruct reverse; intros Hf;
    apply Nat.leb_gt in Hf; apply Nat.leb_le; lia.
Qed.

Lemma precedes_trans x y z :
  precedes key reverse x y = true -> precedes key reverse y z = true ->
  precedes key reverse x z = true.
Proof.
  unfold precedes. destruct reverse; intros H1 H2;
    apply Nat.leb_le in H1; apply Nat.leb_le in H2; apply Nat.leb_le; lia.
Qed.

Lemma insert_sorted_perm x l :
  Permutation (insert_sorted key reverse x l) (x :: l).
Proof.
  induction l as [|y l IH]; simpl; [apply Permutation_refl|].
  destruct (precedes key reverse x y); [apply Permutation_refl|].
  apply perm_trans with (y :: x :: l); [|apply perm_swap].
  apply perm_skip. exact IH.
Qed.

Lemma sorted_perm l : Permutation (sorted key reverse l) l.
Proof.
  induction l as [|x l IH]; simpl; [apply perm_nil|].
  apply perm_trans with (x :: sorted key reverse l).
  - apply insert_sorted_perm.
  - apply perm_skip. exact IH.
Qed.

Lemma insert_sorted_sorted x l :
  StronglySorted (fun u v => precedes key reverse u v = true) l ->
  StronglySorted (fun u v => precedes key reverse u v = true)
                 (insert_sorted key reverse x l).
Proof.
  induction l as [|y l IH]; intros Hs; simpl.
  - constructor; [constructor|constructor].
  - apply StronglySorted_inv in Hs. destruct Hs as [Hl Hy].
    destruct (precedes key reverse x y) eqn:Hxy.
    + constructor.
      * constructor; assumption.
      * constructor; [exact Hxy|].
        eapply Forall_impl; [|exact Hy]. intros z Hyz.
        apply (precedes_trans x y z Hxy Hyz).
    + constructor.
      * apply IH. exact Hl.
      * apply (Permutation_Forall (x := x :: l)).
        -- apply Permutation_sym. apply insert_sorted_perm.
        -- constructor; [apply precedes_total; exact Hxy|exact Hy].
Qed.

Lemma sorted_sorted l :
  StronglySorted (fun u v => precedes key reverse u v = true)
                 (sorted key reverse l).
Proof.
  induction l as [|x l IH]; simpl; [constructor|].
  apply insert_sorted_sorted. exact IH.
Qed.

Lemma sorted_nonempty x l : sorted key reverse (x :: l) <> [].
Proof.
  intros Heq. pose proof (sorted_perm (x :: l)) as Hp. rewrite Heq in Hp.
  apply Permutation_nil in Hp. discriminate.
Qed.

End SortedFacts.

Lemma sorted_items_keys (f : string -> nat) (items : list (string * nat)) :
  StronglySorted (fun p q => precedes snd true p q = true) items ->
  (forall p, In p items -> snd p = f (fst p)) ->
  StronglySorted (fun w1 w2 => f w2 <= f w1) (map fst items).
Proof.
  induction 1 as [|p items Hs IH Hall]; intros Hkeys; simpl.
  - constructor.
  - constructor.
    + apply IH. intros q Hq. apply Hkeys. right. exact Hq.
    + apply Forall_map. rewrite Forall_forall in *. intros q Hq.
      specialize (Hall q Hq). unfold precedes in Hall. apply Nat.leb_le in Hall.
      rewrite <- (Hkeys p (or_introl eq_refl)), <- (Hkeys q (or_intror Hq)).
      exact Hall.
Qed.

Lemma strongly_sorted_weaken {A : Type} (R1 R2 : A -> A -> Prop) (l : list A) :
  (forall x y, R1 x y -> R2 x y) ->
  StronglySorted R1 l -> StronglySorted R2 l.
Proof.
  intros Himpl. induction 1 as [|x l Hs IH Hall]; constructor.
  - exact IH.
  - eapply Forall_impl; [|exact Hall]. intros y. apply Himpl.
Qed.

(* ------------------------------------------------------------------ *)
(** ** [order_domain_values] *)

Lemma odv_count_values_spec overlap (w : string) :
  forall (nvals : list string) (cnt : nat),
  (forall a b, overlap = Some (a, b) ->
               a < String.length w /\ in_range b nvals) ->
  odv_count_values overlap w nvals cnt = Ok (cnt + kept_in w overlap nvals).
Proof.
  destruct overlap as [[a b]|]; simpl.
  - induction nvals as [|v rest IH]; intros cnt Hr; simpl.
    + f_equal. lia.
    + destruct (Hr a b eq_refl) as [Ha Hb].
      inversion Hb as [|? ? Hv Hb']; subst.
      destruct (char_at_in_range v b Hv) as (cn & Hcn & Hgn).
      destruct (char_at_in_range w a Ha) as (cv & Hcv & Hgv).
      rewrite Hcn, Hcv. simpl. unfold agreeb at 1. rewrite Hgv, Hgn.
      rewrite (Ascii.eqb_sym cn cv).
      destruct (Ascii.eqb cv cn); simpl.
      * rewrite IH.
        -- f_equal. lia.
        -- intros a' b' Heq. inversion Heq; subst. auto.
      * apply IH. intros a' b' Heq. inversion Heq; subst. auto.
  - induction nvals as [|v rest IH]; intros cnt Hr; simpl.
    + f_equal. lia.
    + apply IH. intros a b Heq. discriminate.
Qed.

Section OrderDomainValues.
Variable c : Crossword.
Variable d : Domains.
Variable assignment : Assignment.
Variable var : Var.

Lemma odv_count_neighbors_spec (w : string) :
  forall (ns : list Var) (cnt : nat),
  (forall n, In n ns -> Dict.mem n assignment = false ->
     exists dn, Dict.get n d = Ok dn /\
       forall a b, overlaps c var n = Some (a, b) ->
                   a < String.length w /\ in_range b dn) ->
  odv_count_neighbors c d assignment var w ns cnt
  = Ok (cnt + list_sum
                (map (fun n =>
                        match Dict.get n d with
                        | Ok dn => kept_in w (overlaps c var n) dn
                        | Raise _ => 0
                        end)
                     (filter (fun n => negb (Dict.mem n assignment)) ns))).
Proof.
  induction ns as [|n ns IH]; intros cnt Hns; simpl.
  - f_equal. lia.
  - destruct (Dict.mem n assignment) eqn:Hmem; simpl.
    + apply IH. intros n' Hn'. apply Hns. right. exact Hn'.
    + destruct (Hns n (or_introl eq_refl) Hmem) as (dn & Hget & Hr).
      rewrite Hget. simpl.
      rewrite (odv_count_values_spec (overlaps c var n) w dn cnt Hr). simpl.
      rewrite IH.
      * f_equal. lia.
      * intros n' Hn'. apply Hns. right. exact Hn'.
Qed.

Lemma odv_count_spec (dv : pyset) :
  neighbors_in_range c d assignment var dv ->
  forall (vals : list string) (count : dict string nat),
  incl vals dv -> NoDup vals ->
  (forall w, In w vals -> ~ In w (Dict.keys count)) ->
  odv_count c d assignment var vals count
  = Ok (count ++ map (fun w => (w, kept c d assignment var w)) vals).
Proof.
  intros Hr. induction vals as [|w rest IH]; intros count Hincl Hnd Hnew; simpl.
  - rewrite app_nil_r. reflexivity.
  - inversion Hnd as [|? ? Hw Hnd']; subst.
    rewrite (odv_count_neighbors_spec w (neighbors c var) 0).
    + simpl. rewrite IH.
      * rewrite dict_keys_set_new.
        -- rewrite <- app_assoc. reflexivity.
        -- apply dict_mem_false. apply Hnew. left. reflexivity.
      * intros z Hz. apply Hincl. right. exact Hz.
      * exact Hnd'.
      * intros z Hz. rewrite dict_keys_set_new
          by (apply dict_mem_false; apply Hnew; left; reflexivity).
        unfold Dict.keys. rewrite map_app, in_app_iff. simpl.
        intros [Hin|[Heq|[]]].
        -- apply (Hnew z (or_intror Hz)). exact Hin.
        -- subst. contradiction.
    + intros n Hn Hmem. destruct (Hr n Hn Hmem) as (dn & Hget & Hab).
      exists dn. split; [exact Hget|]. intros a b Hov.
      destruct (Hab a b Hov) as [Ha Hb]. split; [|exact Hb].
      unfold in_range in Ha. rewrite Forall_forall in Ha.
      apply Ha. apply Hincl. left. reflexivity.
Qed.

(** Kept and ruled out words share out the domains of the neighbors. *)
Lemma kept_ruled_out (w : string) :
  kept c d assignment var w + ruled_out c d assignment var w
  = over_neighbors c d assignment var
      (fun overlap dn => match overlap with
                         | Some _ => List.length dn
                         | None => 0
                         end).
Proof.
  unfold kept, ruled_out, over_neighbors.
  induction (unassigned_neighbors c assignment var) as [|n ns IH]; simpl;
    [reflexivity|].
  rewrite <- IH.
  assert (Hn : match Dict.get n d with
               | Ok dn => kept_in w (overlaps c var n) dn
               | Raise _ => 0
               end
               + match Dict.get n d with
                 | Ok dn => ruled_out_in w (overlaps c var n) dn
                 | Raise _ => 0
                 end
               = match Dict.get n d with
                 | Ok dn => match overlaps c var n with
                            | Some _ => List.length dn
                            | None => 0
                            end
                 | Raise _ => 0
                 end).
  { destruct (Dict.get n d) as [dn|e]; [|reflexivity].
    destruct (overlaps c var n) as [[a b]|]; simpl; [|reflexivity].
    apply filter_length. }
  lia.
Qed.

Lemma ruled_out_order (w1 w2 : string) :
  kept c d assignment var w2 <= kept c d assignment var w1 ->
  ruled_out c d assignment var w1 <= ruled_out c d assignment var w2.
Proof.
  pose proof (kept_ruled_out w1). pose proof (kept_ruled_out w2). lia.
Qed.

End OrderDomainValues.

(** C9.  [order_domain_values(var, assignment)] returns exactly the
    words of [domains[var]] (a permutation of them), in ascending order
    of [ruled_out]: the sum, over the neighbors of [var] that are not
    assigned, of the number of words of the neighbor's domain whose
    character at the overlap differs from the candidate's.  Assigned
    neighbors take no part in the count.  The function reads the store
    and returns the list only: no domain changes.  (The source counts the
    words that agree and sorts in descending order, which is the same
    order.) *)
Theorem order_domain_values_spec (c : Crossword) (d : Domains) (var : Var)
    (assignment : Assignment) (dv : pyset) :
  Dict.get var d = Ok dv -> NoDup dv ->
  neighbors_in_range c d assignment var dv ->
  exists l,
    order_domain_values c d var assignment = Ok l /\
    Permutation l dv /\
    StronglySorted
      (fun w1 w2 => ruled_out c d assignment var w1
                    <= ruled_out c d assignment var w2) l.
Proof.
  intros Hget Hnd Hr. unfold order_domain_values. rewrite Hget. simpl.
  rewrite (odv_count_spec c d assignment var dv Hr dv [] (incl_refl dv) Hnd)
    by (intros w _ []).
  simpl. eexists. split; [reflexivity|].
  set (items := map (fun w => (w, kept c d assignment var w)) dv).
  assert (Hitems : map fst items = dv).
  { unfold items. rewrite map_map. simpl. apply map_id. }
  split.
  - apply perm_trans with (map fst items).
    + apply Permutation_map. apply sorted_perm.
    + rewrite Hitems. apply Permutation_refl.
  - apply strongly_sorted_weaken
      with (R1 := fun w1 w2 => kept c d assignment var w2
                               <= kept c d assignment var w1).
    + intros w1 w2. apply ruled_out_order.
    + apply sorted_items_keys; [apply sorted_sorted|].
      intros p Hp.
      apply (Permutation_in _ (sorted_perm snd true items)) in Hp.
      unfold items in Hp. apply in_map_iff in Hp.
      destruct Hp as (w & <- & _). reflexivity.
Qed.

Lemma order_domain_values_spec_witness :
  exists l,
    order_domain_values crossed
      [(A, ["COT"; "CAT"]); (B, ["APE"; "OWL"; "ANT"])] A [] = Ok l /\
    Permutation l ["COT"; "CAT"] /\
    StronglySorted
      (fun w1 w2 =>
         ruled_out crossed [(A, ["COT"; "CAT"]); (B, ["APE"; "OWL"; "ANT"])] [] A w1
         <= ruled_out crossed [(A, ["COT"; "CAT"]); (B, ["APE"; "OWL"; "ANT"])] [] A w2)
      l.
Proof.
  apply (order_domain_values_spec crossed
           [(A, ["COT"; "CAT"]); (B, ["APE"; "OWL"; "ANT"])] A [] ["COT"; "CAT"]).
  - reflexivity.
  - repeat constructor; simpl; intuition discriminate.
  - intros n Hn _. destruct Hn as [<-|[]].
    exists ["APE"; "OWL"; "ANT"]. split; [reflexivity|].
    intros a b Hov. inversion Hov; subst.
    split; repeat constructor.
Defined.

Example order_domain_values_example :
  order_domain_values crossed
    [(A, ["COT"; "CAT"]); (B, ["APE"; "OWL"; "ANT"])] A [] = Ok ["CAT"; "COT"].
Proof. reflexivity. Qed.

(* ------------------------------------------------------------------ *)
(** ** The recursion bound of [backtrack] *)

Lemma pythonic_Ok {A} (a : A) : pythonic (Ok a).
Proof. discriminate. Qed.

Lemma pythonic_KeyError {A} : pythonic (@Raise A KeyError).
Proof. discriminate. Qed.

Lemma pythonic_IndexError {A} : pythonic (@Raise A IndexError).
Proof. discriminate. Qed.

Lemma pythonic_bind {A B} (m : result A) (k : A -> result B) :
  pythonic m -> (forall a, pythonic (k a)) -> pythonic (bind m k).
Proof.
  intros Hm Hk. destruct m as [a|e]; simpl; [apply Hk|].
  intros Heq. apply Hm. congruence.
Qed.

Lemma pythonic_get {K V} `{EqDec K} (k : K) (d : dict K V) :
  pythonic (Dict.get k d).
Proof.
  induction d as [|[k' v] d IH]; simpl; [discriminate|].
  destruct (eq_dec k k'); [discriminate|exact IH].
Qed.

Lemma pythonic_char_at w k : pythonic (char_at w k).
Proof. unfold char_at. destruct (String.get k w); discriminate. Qed.

Create HintDb pythonic.
#[local] Hint Resolve pythonic_Ok pythonic_KeyError pythonic_IndexError
  pythonic_get pythonic_char_at : pythonic.

Ltac pythonic_step :=
  match goal with
  | |- pythonic (bind _ _) => apply pythonic_bind; [|intros ?]
  | |- pythonic (if ?b then _ else _) => destruct b
  | |- pythonic (match ?x with _ => _ end) => destruct x
  | |- _ => solve [auto with pythonic]
  end.

Lemma pythonic_consistent_neighbors c assignment var ns :
  pythonic (consistent_neighbors c assignment var ns).
Proof.
  induction ns as [|n ns IH]; simpl; repeat pythonic_step.
Qed.

#[local] Hint Resolve pythonic_consistent_neighbors : pythonic.

Lemma pythonic_consistent_vars c assignment vars :
  forall values, pythonic (consistent_vars c assignment vars values).
Proof.
  induction vars as [|var vars IH]; intros values; simpl; repeat pythonic_step.
Qed.

Lemma pythonic_consistent c assignment : pythonic (consistent c assignment).
Proof. apply pythonic_consistent_vars. Qed.

Lemma pythonic_odv_count_values overlap w nvals :
  forall cnt, pythonic (odv_count_values overlap w nvals cnt).
Proof.
  induction nvals as [|v nvals IH]; intros cnt; simpl; repeat pythonic_step.
Qed.

#[local] Hint Resolve pythonic_consistent pythonic_odv_count_values : pythonic.

Lemma pythonic_odv_count_neighbors c d assignment var w ns :
  forall cnt, pythonic (odv_count_neighbors c d assignment var w ns cnt).
Proof.
  induction ns as [|n ns IH]; intros cnt; simpl; repeat pythonic_step.
Qed.

#[local] Hint Resolve pythonic_odv_count_neighbors : pythonic.

Lemma pythonic_odv_count c d assignment var vals :
  forall count, pythonic (odv_count c d assignment var vals count).
Proof.
  induction vals as [|w vals IH]; intros count; simpl; repeat pythonic_step.
Qed.

#[local] Hint Resolve pythonic_odv_count : pythonic.

Lemma pythonic_order_domain_values c d var assignment :
  pythonic (order_domain_values c d var assignment).
Proof.
  unfold order_domain_values. repeat pythonic_step.
Qed.

Section Select.
Variable c : Crossword.
Variable d : Domains.
Variable assignment : Assignment.

Lemma suv_count_spec : forall (vars : list Var) (count : dict Var nat),
  incl vars (Dict.keys d) ->
  exists count',
    suv_count d assignment vars count = Ok count' /\
    forall k, In k (Dict.keys count') <->
              In k (Dict.keys count)
              \/ (In k vars /\ Dict.mem k assignment = false).
Proof.
  induction vars as [|var rest IH]; intros count Hincl; simpl.
  - exists count. split; [reflexivity|]. intros k. tauto.
  - assert (Hrest : incl rest (Dict.keys d))
      by (intros z Hz; apply Hincl; right; exact Hz).
    destruct (Dict.mem var assignment) eqn:Hmem.
    + destruct (IH count Hrest) as (count' & Hrun & Hkeys).
      exists count'. split; [exact Hrun|]. intros k. rewrite Hkeys.
      split; [tauto|]. intros [Hc|[[<-|Hin] Hk]]; try tauto. congruence.
    + destruct (dict_mem_get var d) as (s & Hget).
      { apply dict_mem_In. apply Hincl. left. reflexivity. }
      rewrite Hget. simpl.
      destruct (IH (Dict.set var (List.length s) count) Hrest)
        as (count' & Hrun & Hkeys).
      exists count'. split; [exact Hrun|]. intros k.
      rewrite Hkeys, dict_set_keys_In. split.
      * intros [[->|Hc]|[Hin Hk]]; tauto.
      * intros [Hc|[[<-|Hin] Hk]]; tauto.
Qed.

Lemma suv_degree_keys highestValue :
  forall (items : list (Var * nat)) (neigbor : dict Var nat) k,
  In k (Dict.keys (suv_degree c highestValue items neigbor)) <->
  In k (Dict.keys neigbor) \/ In (k, highestValue) items.
Proof.
  induction items as [|[k0 v0] items IH]; intros neigbor k; simpl.
  - tauto.
  - destruct (Nat.eqb_spec v0 highestValue) as [->|Hne].
    + rewrite IH, dict_set_keys_In. split.
      * intros [[->|Hin]|Hin]; tauto.
      * intros [Hin|[Heq|Hin]]; try tauto. inversion Heq; subst. tauto.
    + rewrite IH. split; [tauto|].
      intros [Hin|[Heq|Hin]]; try tauto. inversion Heq; subst. congruence.
Qed.

(** An incomplete assignment makes [select_unassigned_variable] return
    a key of the store that the assignment leaves out. *)
Lemma select_unassigned_variable_spec :
  assignment_complete d assignment = false ->
  exists var,
    select_unassigned_variable c d assignment = Ok var /\
    In var (Dict.keys d) /\ Dict.mem var assignment = false.
Proof.
  intros Hinc. unfold select_unassigned_variable.
  destruct (suv_count_spec (Dict.keys d) [] (incl_refl _))
    as (count & Hrun & Hkeys).
  rewrite Hrun. simpl.
  assert (Hsome : exists k0, In k0 (Dict.keys d) /\ Dict.mem k0 assignment = false).
  { unfold assignment_complete in Hinc.
    destruct (existsb (fun var => negb (Dict.mem var assignment)) (Dict.keys d))
      eqn:Hex.
    - apply existsb_exists in Hex. destruct Hex as (k0 & Hin & Hneg).
      exists k0. split; [exact Hin|]. apply negb_true_iff. exact Hneg.
    - exfalso. apply not_true_iff_false in Hinc. apply Hinc.
      apply forallb_forall. intros k Hk.
      destruct (Dict.mem k assignment) eqn:Hm; [reflexivity|].
      assert (Hex' : existsb (fun var => negb (Dict.mem var assignment))
                             (Dict.keys d) = true).
      { apply existsb_exists. exists k. rewrite Hm. auto. }
      congruence. }
  destruct Hsome as (k0 & Hk0 & Hm0).
  assert (Hcount : In k0 (Dict.keys count)) by (apply Hkeys; right; auto).
  destruct count as [|item count]; [destruct Hcount|].
  destruct (sorted snd false (item :: count)) as [|[k1 highestValue] sorted_order]
    eqn:Hsorted.
  { exfalso. apply (sorted_nonempty snd false item count Hsorted). }
  assert (Hk1 : In (k1, highestValue) (item :: count)).
  { apply (Permutation_in _ (sorted_perm snd false (item :: count))).
    rewrite Hsorted. left. reflexivity. }
  assert (Hdeg : In k1 (Dict.keys (suv_degree c highestValue (item :: count) []))).
  { apply suv_degree_keys. right. exact Hk1. }
  destruct (suv_degree c highestValue (item :: count) []) as [|nitem neigbor]
    eqn:Hneigbor; [destruct Hdeg|].
  destruct (sorted snd true (nitem :: neigbor)) as [|[var degree] sorted_value]
    eqn:Hsorted'.
  { exfalso. apply (sorted_nonempty snd true nitem neigbor Hsorted'). }
  exists var. split; [reflexivity|].
  assert (Hvar : In var (Dict.keys (nitem :: neigbor))).
  { apply dict_keys_In_pair. exists degree.
    apply (Permutation_in _ (sorted_perm snd true (nitem :: neigbor))).
    rewrite Hsorted'. left. reflexivity. }
  rewrite <- Hneigbor in Hvar. apply suv_degree_keys in Hvar.
  destruct Hvar as [[]|Hvar].
  assert (Hvar' : In var (Dict.keys (item :: count)))
    by (apply dict_keys_In_pair; eauto).
  apply Hkeys in Hvar'. destruct Hvar' as [[]|Hvar']. exact Hvar'.
Qed.

End Select.

Lemma unassigned_set_le (d : Domains) (assignment : Assignment) var value :
  forall (vars : list Var),
  List.length (filter (fun k => negb (Dict.mem k (Dict.set var value assignment))) vars)
  <= List.length (filter (fun k => negb (Dict.mem k assignment)) vars).
Proof.
  induction vars as [|k vars IH]; simpl; [lia|].
  rewrite dict_mem_set.
  destruct (eqb_of k var); destruct (Dict.mem k assignment); simpl; lia.
Qed.

Lemma unassigned_set_lt (d : Domains) (assignment : Assignment) var value :
  In var (Dict.keys d) -> Dict.mem var assignment = false ->
  unassigned d (Dict.set var value assignment) < unassigned d assignment.
Proof.
  unfold unassigned. intros Hin Hmem.
  induction (Dict.keys d) as [|k vars IH]; simpl; [destruct Hin|].
  rewrite dict_mem_set.
  pose proof (unassigned_set_le d assignment var value vars) as Hle.
  destruct Hin as [->|Hin].
  - unfold eqb_of. destruct (eq_dec var var); [|congruence].
    rewrite Hmem. simpl. lia.
  - specialize (IH Hin).
    destruct (eqb_of k var); destruct (Dict.mem k assignment); simpl; lia.
Qed.

Section BacktrackFuel.
Variable c : Crossword.
Variable d : Domains.

Lemma try_values_pythonic recurse var (assignment : Assignment) :
  Dict.mem var assignment = false ->
  (forall value, pythonic (recurse (Dict.set var value assignment))) ->
  forall vals, pythonic (try_values recurse c var vals assignment).
Proof.
  intros Hmem Hrec. induction vals as [|value rest IH]; simpl.
  - apply pythonic_Ok.
  - rewrite (dict_del_set_new var value assignment Hmem). simpl.
    apply pythonic_bind; [apply pythonic_consistent|].
    intros [|]; [|exact IH].
    apply pythonic_bind; [apply Hrec|].
    intros [[|binding more]|]; [exact IH|apply pythonic_Ok|exact IH].
Qed.

(** One unit of fuel per slot left to assign is enough. *)
Lemma backtrack_fuel_enough : forall fuel (assignment : Assignment),
  unassigned d assignment < fuel ->
  pythonic (backtrack_fuel fuel c d assignment).
Proof.
  induction fuel as [|fuel IH]; intros assignment Hlt; [lia|]. simpl.
  destruct (assignment_complete d assignment) eqn:Hcomplete;
    [apply pythonic_Ok|].
  destruct (select_unassigned_variable_spec c d assignment Hcomplete)
    as (var & Hsel & Hin & Hmem).
  rewrite Hsel. simpl.
  apply pythonic_bind; [apply pythonic_order_domain_values|].
  intros vals. apply try_values_pythonic; [exact Hmem|].
  intros value. apply IH.
  pose proof (unassigned_set_lt d assignment var value Hin Hmem). lia.
Qed.

Lemma backtrack_pythonic (assignment : Assignment) :
  pythonic (backtrack c d assignment).
Proof.
  apply backtrack_fuel_enough. lia.
Qed.

Lemma try_values_ext recurse1 recurse2 var (assignment : Assignment) :
  Dict.mem var assignment = false ->
  (forall value, recurse1 (Dict.set var value assignment)
                 = recurse2 (Dict.set var value assignment)) ->
  forall vals, try_values recurse1 c var vals assignment
               = try_values recurse2 c var vals assignment.
Proof.
  intros Hmem Hrec. induction vals as [|value rest IH]; simpl; [reflexivity|].
  rewrite (dict_del_set_new var value assignment Hmem), Hrec. simpl.
  destruct (consistent c (Dict.set var value assignment)) as [[|]|e]; simpl;
    try reflexivity; [|exact IH].
  destruct (recurse2 (Dict.set var value assignment))
    as [[[|binding more]|]|e]; simpl; try reflexivity; exact IH.
Qed.

(** More fuel than that changes nothing. *)
Lemma backtrack_fuel_irrelevant : forall fuel1 fuel2 (assignment : Assignment),
  unassigned d assignment < fuel1 -> unassigned d assignment < fuel2 ->
  backtrack_fuel fuel1 c d assignment = backtrack_fuel fuel2 c d assignment.
Proof.
  induction fuel1 as [|fuel1 IH]; intros fuel2 assignment H1 H2; [lia|].
  destruct fuel2 as [|fuel2]; [lia|]. simpl.
  destruct (assignment_complete d assignment) eqn:Hcomplete; [reflexivity|].
  destruct (select_unassigned_variable_spec c d assignment Hcomplete)
    as (var & Hsel & Hin & Hmem).
  rewrite Hsel. simpl.
  destruct (order_domain_values c d var assignment) as [vals|e]; simpl;
    [|reflexivity].
  apply try_values_ext; [exact Hmem|].
  intros value.
  pose proof (unassigned_set_lt d assignment var value Hin Hmem).
  apply IH; lia.
Qed.

End BacktrackFuel.

(* ------------------------------------------------------------------ *)
(** ** [backtrack] *)

Section Backtrack.
Variable c : Crossword.
Variable d : Domains.

Lemma try_values_sound recurse var :
  (forall a r, recurse a = Ok (Some r) -> consistent c a = Ok true ->
               solution c d r) ->
  forall vals a r,
    try_values recurse c var vals a = Ok (Some r) -> solution c d r.
Proof.
  intros Hrec. induction vals as [|value rest IH]; intros a r; simpl;
    [discriminate|].
  destruct (consistent c (Dict.set var value a)) as [[|]|e] eqn:Hcons; simpl;
    try discriminate.
  - destruct (recurse (Dict.set var value a)) as [[[|binding more]|]|e] eqn:Hr;
      simpl; try discriminate.
    + destruct (Dict.del var (Dict.set var value a)) as [a2|e]; simpl;
        [apply IH|discriminate].
    + intros Heq. inversion Heq; subst. apply (Hrec _ _ Hr Hcons).
    + destruct (Dict.del var (Dict.set var value a)) as [a2|e]; simpl;
        [apply IH|discriminate].
  - destruct (Dict.del var (Dict.set var value a)) as [a2|e]; simpl;
      [apply IH|discriminate].
Qed.

Lemma backtrack_fuel_sound : forall fuel a r,
  backtrack_fuel fuel c d a = Ok (Some r) ->
  consistent c a = Ok true -> solution c d r.
Proof.
  induction fuel as [|fuel IH]; intros a r; simpl; [discriminate|].
  destruct (assignment_complete d a) eqn:Hcomplete.
  - intros Heq Hcons. inversion Heq; subst. split; assumption.
  - destruct (select_unassigned_variable c d a) as [var|e]; simpl;
      [|discriminate].
    destruct (order_domain_values c d var a) as [vals|e]; simpl;
      [|discriminate].
    intros Hrun _. apply (try_values_sound _ var IH vals a r Hrun).
Qed.

End Backtrack.

(** C7.  Started from a consistent assignment, [backtrack] returns, when
    it returns an assignment at all, one that is complete (every slot of
    the store has a word) and of which [consistent] holds: no length
    mismatch, pairwise distinct words, agreement at every overlap. *)
Theorem backtrack_sound (c : Crossword) (d : Domains)
    (assignment r : Assignment) :
  consistent c assignment = Ok true ->
  backtrack c d assignment = Ok (Some r) ->
  (assignment_complete d r = true /\ assigns_all d r) /\
  (consistent c r = Ok true /\ well_filled c r).
Proof.
  intros Hcons Hrun.
  destruct (backtrack_fuel_sound c d _ assignment r Hrun Hcons)
    as [Hcomplete Hr].
  split; split.
  - exact Hcomplete.
  - apply assignment_complete_assigns_all. exact Hcomplete.
  - exact Hr.
  - apply consistent_well_filled. exact Hr.
Qed.

Lemma backtrack_sound_witness :
  (assignment_complete [(A, ["CAT"; "COT"]); (B, ["APE"; "OWL"; "ANT"])]
     [(A, "CAT"); (B, "APE")] = true /\
   assigns_all [(A, ["CAT"; "COT"]); (B, ["APE"; "OWL"; "ANT"])]
     [(A, "CAT"); (B, "APE")]) /\
  (consistent crossed [(A, "CAT"); (B, "APE")] = Ok true /\
   well_filled crossed [(A, "CAT"); (B, "APE")]).
Proof.
  apply (backtrack_sound crossed
           [(A, ["CAT"; "COT"]); (B, ["APE"; "OWL"; "ANT"])] []);
    reflexivity.
Defined.

(* ------------------------------------------------------------------ *)
(** ** [solve] *)

(** C3 fails on the source.  On the puzzle [apart] (two slots, no
    overlap) the store is node-consistent, [ac3] reports no failure (it
    raises [IndexError], the pop from the empty worklist) and
    [backtrack] on the empty assignment returns an assignment; [solve]
    returns neither that assignment nor [None]: it raises. *)
Theorem solve_raises_where_backtrack_succeeds :
  enforce_node_consistency (init_domains apart) = Ok (init_domains apart) /\
  ac3 apart None (init_domains apart) = Raise IndexError /\
  backtrack apart (init_domains apart) [] = Ok (Some [(P, "CAT"); (Q, "DOG")]) /\
  solve apart (init_domains apart) = Raise IndexError.
Proof.
  repeat split; reflexivity.
Qed.

(** Where [ac3] returns, [solve] does what the specification says: [ac3]
    has reported true and left the store alone, and [solve] returns
    [backtrack] on the empty assignment over the node-consistent store.
    The exception above is the only way [solve] departs from it. *)
Lemma solve_where_ac3_returns (c : Crossword) (d d1 d2 : Domains)
    (reported : bool) :
  enforce_node_consistency d = Ok d1 ->
  ac3 c None d1 = Ok (reported, d2) ->
  reported = true /\ d2 = d1 /\ solve c d = backtrack c d1 [].
Proof.
  intros Hnode Hac3. unfold solve. rewrite Hnode. simpl. rewrite Hac3.
  destruct (ac3_outcome c None d1) as [H|H]; rewrite H in Hac3;
    inversion Hac3; subst; auto.
Qed.

(** Two runs of [solve]: a puzzle with a solution, and one whose 4-letter
    slot has no word. *)
Example solve_corner_toga :
  solve corner_toga (init_domains corner_toga)
  = Ok (Some [(B4, "TOGA"); (A3, "CAT")]).
Proof. reflexivity. Qed.

Example solve_corner :
  solve corner (init_domains corner) = Ok None.
Proof. reflexivity. Qed.

(* ------------------------------------------------------------------ *)
(** * Further properties *)

(* ------------------------------------------------------------------ *)
(** ** [ac3] never prunes *)

(** X1.  Whenever [ac3] returns, with the default worklist or with any
    list of arcs, it returns true and the store is the one it was given:
    [ac3] removes no word from any domain and never reports failure. *)
Theorem ac3_never_prunes (c : Crossword) (arcs : option (list Arc))
    (d d' : Domains) (reported : bool) :
  ac3 c arcs d = Ok (reported, d') -> reported = true /\ d' = d.
Proof.
  destruct (ac3_outcome c arcs d) as [H|H]; rewrite H; intros Heq;
    inversion Heq; subst; auto.
Qed.

Lemma ac3_never_prunes_witness :
  true = true /\ init_domains crossed = init_domains crossed.
Proof.
  apply (ac3_never_prunes crossed None (init_domains crossed)
           (init_domains crossed) true).
  reflexivity.
Defined.

(* ------------------------------------------------------------------ *)
(** ** [__init__], then node consistency *)

Lemma init_domains_keys (c : Crossword) :
  Dict.keys (init_domains c) = variables c.
Proof.
  unfold init_domains, Dict.keys. rewrite map_map. simpl. apply map_id.
Qed.

Lemma init_domains_wf (c : Crossword) :
  NoDup (variables c) -> NoDup (words c) -> domains_wf (init_domains c).
Proof.
  intros Hv Hw. split.
  - rewrite init_domains_keys. exact Hv.
  - unfold init_domains. apply Forall_map. simpl.
    apply Forall_forall. intros var _. exact Hw.
Qed.

(** X2.  For a puzzle model whose slots are pairwise distinct and whose
    dictionary holds no word twice, node consistency on the store that
    [__init__] builds leaves every slot, in the same order, with exactly
    the words of the dictionary that have the length of the slot. *)
Theorem node_consistency_of_init (c : Crossword) :
  NoDup (variables c) -> NoDup (words c) ->
  enforce_node_consistency (init_domains c)
  = Ok (map (fun var => (var, filter (fits var) (words c))) (variables c)).
Proof.
  intros Hv Hw.
  rewrite (enforce_node_consistency_pruned _ (init_domains_wf c Hv Hw)).
  unfold node_pruned, init_domains. rewrite map_map. reflexivity.
Qed.

Lemma node_consistency_of_init_witness :
  enforce_node_consistency (init_domains corner)
  = Ok (map (fun var => (var, filter (fits var) (words corner)))
            (variables corner)).
Proof.
  apply (node_consistency_of_init corner); simpl;
    repeat constructor; simpl; intuition discriminate.
Defined.

(* ------------------------------------------------------------------ *)
(** ** [revise] only removes *)

Lemma prune_loop_shrinks bad x : forall (copy : list string) (d d' : Domains),
  prune_loop bad x copy d = Ok d' ->
  forall z (s' : pyset), Dict.get z d' = Ok s' ->
    exists s : pyset, Dict.get z d = Ok s /\ incl s' s.
Proof.
  induction copy as [|value rest IH]; intros d d' Hrun z s' Hz; simpl in Hrun.
  - inversion Hrun; subst. exists s'. split; [exact Hz|apply incl_refl].
  - destruct (bad value).
    + destruct (Dict.get x d) as [s|e] eqn:Hget; simpl in Hrun; [|discriminate].
      unfold PySet.remove in Hrun.
      destruct (PySet.mem value s); simpl in Hrun; [|discriminate].
      destruct (IH _ _ Hrun z s' Hz) as (s1 & Hs1 & Hincl).
      destruct (eq_dec z x) as [->|Hne].
      * rewrite dict_get_set_same in Hs1. inversion Hs1; subst.
        exists s. split; [exact Hget|].
        intros w Hw. apply Hincl in Hw. apply filter_In in Hw. tauto.
      * rewrite dict_get_set_other in Hs1 by exact Hne.
        exists s1. split; assumption.
    + apply (IH _ _ Hrun z s' Hz).
Qed.

(** X3.  [revise] only removes: after a call that returns, every slot
    of the store was a slot before, and every word of its domain was in
    its domain before.  No in-range or set hypothesis is needed. *)
Theorem revise_shrinks (c : Crossword) (x y : Var) (d d' : Domains)
    (revision : bool) :
  revise c x y d = Ok (revision, d') ->
  forall z (s' : pyset), Dict.get z d' = Ok s' ->
    exists s : pyset, Dict.get z d = Ok s /\ incl s' s.
Proof.
  unfold revise. destruct (overlaps c x y) as [[a b]|].
  - destruct (Dict.get x d) as [dx|e]; simpl; [|discriminate].
    destruct (revise_outer a b d y dx []) as [removable|e]; simpl; [|discriminate].
    rewrite revise_prune_prune_loop.
    destruct (prune_loop _ x dx d) as [d1|e] eqn:Hrun; simpl; [|discriminate].
    destruct (Dict.get x d1) as [s|e]; simpl; [|discriminate].
    intros Heq. inversion Heq; subst. apply (prune_loop_shrinks _ _ _ _ _ Hrun).
  - intros Heq. inversion Heq; subst. intros z s' Hz.
    exists s'. split; [exact Hz|apply incl_refl].
Qed.

Lemma revise_shrinks_witness :
  exists s : pyset,
    Dict.get A [(A, ["CAT"; "DOG"]); (B, ["APE"])] = Ok s /\ incl ["CAT"] s.
Proof.
  apply (revise_shrinks crossed A B [(A, ["CAT"; "DOG"]); (B, ["APE"])]
           [(A, ["CAT"]); (B, ["APE"])] true); reflexivity.
Defined.

(* ------------------------------------------------------------------ *)
(** ** [revise] on words that are too short *)

Lemma get_out_of_range : forall (w : string) (k : nat),
  String.length w <= k -> String.get k w = None.
Proof.
  induction w as [|ch w IH]; intros k Hk; simpl in *.
  - reflexivity.
  - destruct k as [|k]; [lia|]. apply IH. lia.
Qed.

Lemma char_at_out_of_range (w : string) (k : nat) :
  String.length w <= k -> char_at w k = Raise IndexError.
Proof.
  intros Hk. unfold char_at. rewrite (get_out_of_range w k Hk). reflexivity.
Qed.

Lemma char_at_outcome (w : string) (k : nat) :
  (exists ch, char_at w k = Ok ch) \/ char_at w k = Raise IndexError.
Proof.
  unfold char_at. destruct (String.get k w); eauto.
Qed.

(** The inner loop raises nothing but [IndexError]. *)
Lemma revise_inner_outcome a b xvalue : forall (ys removable : list string),
  (exists removable', revise_inner a b xvalue ys removable = Ok removable')
  \/ revise_inner a b xvalue ys removable = Raise IndexError.
Proof.
  induction ys as [|yvalue rest IH]; intros removable; simpl; [eauto|].
  destruct (char_at_outcome xvalue a) as [[cx ->]| ->]; simpl; [|auto].
  destruct (char_at_outcome yvalue b) as [[cy ->]| ->]; simpl; [|auto].
  destruct (Ascii.eqb cx cy); [|apply IH].
  destruct (negb (list_mem xvalue removable)); apply IH.
Qed.

Lemma revise_inner_short_x a b xvalue yvalue (ys removable : list string) :
  String.length xvalue <= a ->
  revise_inner a b xvalue (yvalue :: ys) removable = Raise IndexError.
Proof.
  intros Hx. simpl. rewrite (char_at_out_of_range xvalue a Hx). reflexivity.
Qed.

Lemma revise_inner_short_y a b xvalue : forall (ys removable : list string),
  (exists v, In v ys /\ String.length v <= b) ->
  revise_inner a b xvalue ys removable = Raise IndexError.
Proof.
  induction ys as [|yvalue rest IH]; intros removable (v & Hin & Hv); simpl.
  - destruct Hin.
  - destruct (char_at_outcome xvalue a) as [[cx ->]| ->]; simpl; [|reflexivity].
    destruct Hin as [->|Hin].
    + rewrite (char_at_out_of_range v b Hv). reflexivity.
    + destruct (char_at_outcome yvalue b) as [[cy ->]| ->]; simpl; [|reflexivity].
      destruct (Ascii.eqb cx cy); [|apply IH; eauto].
      destruct (negb (list_mem xvalue removable)); apply IH; eauto.
Qed.

Lemma revise_outer_short a b (d : Domains) y (dy : pyset) :
  Dict.get y d = Ok dy ->
  forall (xs removable : list string),
  (dy <> [] /\ exists w, In w xs /\ String.length w <= a) \/
  (xs <> [] /\ exists v, In v dy /\ String.length v <= b) ->
  revise_outer a b d y xs removable = Raise IndexError.
Proof.
  intros Hy. induction xs as [|xvalue rest IH]; intros removable Hshort; simpl.
  - destruct Hshort as [(_ & w & [] & _)|(Hne & _)]; congruence.
  - rewrite Hy. simpl.
    destruct Hshort as [(Hdy & w & Hin & Hw)|(_ & Hv)].
    + destruct Hin as [->|Hin].
      * destruct dy as [|yvalue ys]; [congruence|].
        rewrite (revise_inner_short_x a b w yvalue ys removable Hw). reflexivity.
      * destruct (revise_inner_outcome a b xvalue dy removable)
          as [[removable' ->]| ->]; simpl; [|reflexivity].
        apply IH. left. split; [exact Hdy|eauto].
    + rewrite (revise_inner_short_y a b xvalue dy removable Hv). reflexivity.
Qed.

(** X4.  With an overlap [(a, b)] between [x] and [y], [revise] raises
    [IndexError] when [domains[y]] is not empty and some word of
    [domains[x]] has no character [a], and also when [domains[x]] is not
    empty and some word of [domains[y]] has no character [b]: on a store
    that is not node-consistent the indexing of the words fails. *)
Theorem revise_short_word_raises (c : Crossword) (x y : Var) (d : Domains)
    (a b : nat) (dx dy : pyset) :
  overlaps c x y = Some (a, b) ->
  Dict.get x d = Ok dx -> Dict.get y d = Ok dy ->
  (dy <> [] /\ exists w, In w dx /\ String.length w <= a) \/
  (dx <> [] /\ exists v, In v dy /\ String.length v <= b) ->
  revise c x y d = Raise IndexError.
Proof.
  intros Hov Hx Hy Hshort. unfold revise. rewrite Hov, Hx. simpl.
  rewrite (revise_outer_short a b d y dy Hy dx [] Hshort). reflexivity.
Qed.

Lemma revise_short_word_raises_witness :
  revise corner A3 B4 [(A3, ["CAT"; "AT"]); (B4, ["TOGA"])] = Raise IndexError.
Proof.
  apply (revise_short_word_raises corner A3 B4
           [(A3, ["CAT"; "AT"]); (B4, ["TOGA"])] 2 0 ["CAT"; "AT"] ["TOGA"]);
    try reflexivity.
  left. split; [discriminate|].
  exists "AT". split; [right; left; reflexivity|].
  simpl. lia.
Defined.

(* ------------------------------------------------------------------ *)
(** ** [solve] without crossings *)

(** X5.  On a well-formed store no two distinct slots of which overlap
    (a puzzle of one slot, or of slots that never cross), [solve] raises
    [IndexError]: it returns neither an assignment nor [None]. *)
Theorem solve_no_overlap_raises (c : Crossword) (d : Domains) :
  domains_wf d -> no_overlap c d -> solve c d = Raise IndexError.
Proof.
  intros Hwf Hno. unfold solve.
  rewrite (enforce_node_consistency_pruned d Hwf). simpl.
  rewrite ac3_unfold, initial_arcs_no_overlap; [reflexivity|].
  unfold no_overlap. rewrite node_pruned_keys. exact Hno.
Qed.

Lemma solve_no_overlap_raises_witness :
  solve apart (init_domains apart) = Raise IndexError.
Proof.
  apply (solve_no_overlap_raises apart (init_domains apart)).
  - split; simpl; repeat constructor; simpl; intuition discriminate.
  - intros a b _ _ _. reflexivity.
Defined.

(* ------------------------------------------------------------------ *)
(** ** [consistent], the other way round *)

Section ConsistentOk.
Variable c : Crossword.
Variable assignment : Assignment.
Hypothesis Hfilled : well_filled c assignment.

Lemma consistent_neighbors_ok var wv : forall ns,
  Dict.get var assignment = Ok wv ->
  incl ns (neighbors c var) ->
  consistent_neighbors c assignment var ns = Ok true.
Proof.
  intros ns Hvar. induction ns as [|n ns IH]; intros Hincl; simpl; [reflexivity|].
  assert (Hrest : incl ns (neighbors c var))
    by (intros z Hz; apply Hincl; right; exact Hz).
  destruct (overlaps c var n) as [[a b]|] eqn:Hov; [|apply IH; exact Hrest].
  destruct (Dict.mem n assignment) eqn:Hmem; [|apply IH; exact Hrest].
  destruct (dict_mem_get n assignment Hmem) as (wn & Hn).
  destruct Hfilled as (_ & _ & Hagree).
  destruct (Hagree var n a b wv wn (Hincl n (or_introl eq_refl)) Hov Hvar Hn)
    as (ch & Hgv & Hgn).
  rewrite Hvar. simpl. unfold char_at. rewrite Hgv. simpl.
  rewrite Hn. simpl. rewrite Hgn. simpl.
  rewrite Ascii.eqb_refl. simpl. apply IH. exact Hrest.
Qed.

Lemma consistent_vars_ok : forall vars values,
  NoDup vars -> incl vars (Dict.keys assignment) ->
  (forall w, In w values ->
     exists var', Dict.get var' assignment = Ok w /\ ~ In var' vars) ->
  consistent_vars c assignment vars values = Ok true.
Proof.
  induction vars as [|var rest IH]; intros values Hnd Hincl Hvalues; simpl;
    [reflexivity|].
  inversion Hnd as [|? ? Hnotin Hnd']; subst.
  destruct (dict_mem_get var assignment) as (w & Hget).
  { apply dict_mem_In. apply Hincl. left. reflexivity. }
  rewrite Hget. simpl.
  destruct Hfilled as (Hlen & Hdistinct & _).
  rewrite (Hlen var w Hget), Nat.eqb_refl. simpl.
  destruct (list_mem w values) eqn:Hmem.
  - exfalso. apply list_mem_In in Hmem.
    destruct (Hvalues w Hmem) as (var' & Hget' & Hout).
    apply Hout. left. apply (Hdistinct var var' w Hget Hget').
  - rewrite (consistent_neighbors_ok var w _ Hget (incl_refl _)). simpl.
    apply IH.
    + exact Hnd'.
    + intros z Hz. apply Hincl. right. exact Hz.
    + intros w' Hw'. apply in_app_iff in Hw'. destruct Hw' as [Hw'|[<-|[]]].
      * destruct (Hvalues w' Hw') as (var' & Hget' & Hout).
        exists var'. split; [exact Hget'|]. intros Hin. apply Hout. right. exact Hin.
      * exists var. split; [exact Hget|exact Hnotin].
Qed.

Lemma well_filled_consistent :
  NoDup (Dict.keys assignment) -> consistent c assignment = Ok true.
Proof.
  intros Hnd. unfold consistent.
  apply consistent_vars_ok; [exact Hnd|apply incl_refl|intros w []].
Qed.

End ConsistentOk.

(** X6.  On an assignment with pairwise distinct keys (a dict),
    [consistent] returns true exactly when every word has the length of
    its slot, no word is given to two slots, and the words of every
    assigned slot and assigned neighbor with an overlap agree at it.  So
    it returns false, or raises, only when one of the three fails. *)
Theorem consistent_iff_well_filled (c : Crossword) (assignment : Assignment) :
  NoDup (Dict.keys assignment) ->
  (consistent c assignment = Ok true <-> well_filled c assignment).
Proof.
  intros Hnd. split.
  - apply consistent_well_filled.
  - intros Hfilled. apply (well_filled_consistent c assignment Hfilled Hnd).
Qed.

Lemma consistent_iff_well_filled_witness :
  consistent crossed [(A, "CAT"); (B, "APE")] = Ok true
  <-> well_filled crossed [(A, "CAT"); (B, "APE")].
Proof.
  apply (consistent_iff_well_filled crossed [(A, "CAT"); (B, "APE")]).
  simpl. repeat constructor; simpl; intuition discriminate.
Defined.

(* ------------------------------------------------------------------ *)
(** ** The order of [select_unassigned_variable] *)

Lemma dict_set_In {K V : Type} `{EqDec K} (k k0 : K) (v v0 : V) (d : dict K V) :
  In (k, v) (Dict.set k0 v0 d) -> (k, v) = (k0, v0) \/ In (k, v) d.
Proof.
  induction d as [|[k1 v1] d IH]; simpl.
  - intros [Heq|[]]. left. congruence.
  - destruct (eq_dec k0 k1) as [->|Hne]; simpl.
    + intros [Heq|Hin]; [left; congruence|right; right; exact Hin].
    + intros [Heq|Hin]; [right; left; exact Heq|].
      destruct (IH Hin); [left|right; right]; assumption.
Qed.

Section SelectOrder.
Variable c : Crossword.
Variable d : Domains.
Variable assignment : Assignment.

Lemma suv_count_sizes : forall (vars : list Var) (count count' : dict Var nat),
  suv_count d assignment vars count = Ok count' ->
  forall k v, In (k, v) count' ->
    In (k, v) count \/
    exists s : pyset, Dict.get k d = Ok s /\ v = List.length s.
Proof.
  induction vars as [|var rest IH]; intros count count' Hrun k v Hin;
    simpl in Hrun.
  - inversion Hrun; subst. left. exact Hin.
  - destruct (Dict.mem var assignment).
    + apply (IH _ _ Hrun k v Hin).
    + destruct (Dict.get var d) as [s|e] eqn:Hget; simpl in Hrun; [|discriminate].
      destruct (IH _ _ Hrun k v Hin) as [Hset|Hsize]; [|right; exact Hsize].
      apply dict_set_In in Hset. destruct Hset as [Heq|Hold].
      * inversion Heq; subst. right. exists s. auto.
      * left. exact Hold.
Qed.

Lemma suv_count_assigned : forall (vars : list Var) (count : dict Var nat),
  (forall var, In var vars -> Dict.mem var assignment = true) ->
  suv_count d assignment vars count = Ok count.
Proof.
  induction vars as [|var rest IH]; intros count Hall; simpl; [reflexivity|].
  rewrite (Hall var (or_introl eq_refl)). apply IH.
  intros z Hz. apply Hall. right. exact Hz.
Qed.

Lemma suv_degree_In highestValue :
  forall (items : list (Var * nat)) (neigbor : dict Var nat) k deg,
  In (k, deg) (suv_degree c highestValue items neigbor) ->
  In (k, deg) neigbor \/ deg = List.length (neighbors c k).
Proof.
  induction items as [|[k0 v0] items IH]; intros neigbor k deg Hin; simpl in Hin.
  - left. exact Hin.
  - destruct (v0 =? highestValue).
    + destruct (IH _ _ _ Hin) as [Hset|Hdeg]; [|right; exact Hdeg].
      apply dict_set_In in Hset. destruct Hset as [Heq|Hold].
      * inversion Heq; subst. right. reflexivity.
      * left. exact Hold.
    + apply (IH _ _ _ Hin).
Qed.

End SelectOrder.

Lemma sorted_head_first {A : Type} (key : A -> nat) (reverse : bool)
    (l : list A) x rest :
  sorted key reverse l = x :: rest ->
  forall y, In y l -> precedes key reverse x y = true.
Proof.
  intros Hsorted y Hy.
  pose proof (sorted_sorted key reverse l) as Hs. rewrite Hsorted in Hs.
  apply (Permutation_in _ (Permutation_sym (sorted_perm key reverse l))) in Hy.
  rewrite Hsorted in Hy. apply StronglySorted_inv in Hs. destruct Hs as [_ Hall].
  destruct Hy as [<-|Hy].
  - unfold precedes. destruct reverse; apply Nat.leb_refl.
  - rewrite Forall_forall in Hall. apply Hall. exact Hy.
Qed.

(** The slot selected is one of fewest remaining words and, among those,
    of most neighbors. *)
Lemma select_unassigned_variable_order (c : Crossword) (d : Domains)
    (assignment : Assignment) (var : Var) :
  select_unassigned_variable c d assignment = Ok var ->
  Dict.mem var assignment = false /\
  exists s : pyset,
    Dict.get var d = Ok s /\
    forall k (sk : pyset),
      Dict.get k d = Ok sk -> Dict.mem k assignment = false ->
      List.length s <= List.length sk /\
      (List.length sk = List.length s ->
       List.length (neighbors c k) <= List.length (neighbors c var)).
Proof.
  unfold select_unassigned_variable.
  destruct (suv_count_spec d assignment (Dict.keys d) [] (incl_refl _))
    as (count & Hrun & Hkeys).
  rewrite Hrun. simpl.
  pose proof (suv_count_sizes d assignment _ _ _ Hrun) as Hsizes.
  destruct (sorted snd false count) as [|[k1 highestValue] sorted_order]
    eqn:Hsorted; [discriminate|].
  pose proof (sorted_head_first snd false count _ _ Hsorted) as Hmin.
  destruct (sorted snd true (suv_degree c highestValue count []))
    as [|[var0 degree] sorted_value] eqn:Hsorted'; [discriminate|].
  pose proof (sorted_head_first snd true _ _ _ Hsorted') as Hmax.
  intros Heq. inversion Heq; subst var0. clear Heq.
  assert (Hvar : In (var, degree) (suv_degree c highestValue count [])).
  { apply (Permutation_in _ (sorted_perm snd true _)).
    rewrite Hsorted'. left. reflexivity. }
  assert (Hdegree : degree = List.length (neighbors c var)).
  { destruct (suv_degree_In c highestValue count [] var degree Hvar) as [[]|H].
    exact H. }
  assert (Hvarcount : In (var, highestValue) count).
  { assert (Hk : In var (Dict.keys (suv_degree c highestValue count [])))
      by (apply dict_keys_In_pair; eauto).
    apply suv_degree_keys in Hk. destruct Hk as [[]|Hk]. exact Hk. }
  destruct (Hsizes var highestValue Hvarcount) as [[]|(s & Hs & Hhv)].
  assert (Hvarkey : In var (Dict.keys count)) by (apply dict_keys_In_pair; eauto).
  apply Hkeys in Hvarkey. destruct Hvarkey as [[]|[_ Hunassigned]].
  split; [exact Hunassigned|]. exists s. split; [exact Hs|].
  intros k sk Hk Hkun.
  assert (Hkkey : In k (Dict.keys count)).
  { apply Hkeys. right. split; [|exact Hkun].
    apply dict_mem_In. apply (dict_get_mem _ _ _ Hk). }
  apply dict_keys_In_pair in Hkkey. destruct Hkkey as (v & Hkv).
  destruct (Hsizes k v Hkv) as [[]|(sk' & Hsk' & Hv)].
  assert (sk' = sk) by congruence. subst sk'.
  pose proof (Hmin (k, v) Hkv) as Hle. unfold precedes in Hle. simpl in Hle.
  apply Nat.leb_le in Hle. split; [lia|].
  intros Hsame.
  assert (Hkhv : In (k, highestValue) count) by (replace highestValue with v by lia; exact Hkv).
  assert (Hkn : In k (Dict.keys (suv_degree c highestValue count []))).
  { apply suv_degree_keys. right. exact Hkhv. }
  apply dict_keys_In_pair in Hkn. destruct Hkn as (dk & Hdk).
  destruct (suv_degree_In c highestValue count [] k dk Hdk) as [[]|Hdkeq].
  pose proof (Hmax (k, dk) Hdk) as Hge. unfold precedes in Hge. simpl in Hge.
  apply Nat.leb_le in Hge. lia.
Qed.

(** X7.  The slot [select_unassigned_variable] returns is not assigned,
    has a domain, and that domain is no larger than the domain of any
    other unassigned slot of the store; among the unassigned slots whose
    domain has the same size, none has more neighbors. *)
Theorem select_unassigned_variable_mrv_degree (c : Crossword) (d : Domains)
    (assignment : Assignment) (var : Var) :
  select_unassigned_variable c d assignment = Ok var ->
  Dict.mem var assignment = false /\
  exists s : pyset,
    Dict.get var d = Ok s /\
    forall k (sk : pyset),
      Dict.get k d = Ok sk -> Dict.mem k assignment = false ->
      List.length s <= List.length sk /\
      (List.length sk = List.length s ->
       List.length (neighbors c k) <= List.length (neighbors c var)).
Proof.
  apply select_unassigned_variable_order.
Qed.

Lemma select_unassigned_variable_mrv_degree_witness :
  Dict.mem B4 ([] : Assignment) = false /\
  exists s : pyset,
    Dict.get B4 [(A3, ["CAT"; "DOG"]); (B4, ["TOGA"])] = Ok s /\
    forall k (sk : pyset),
      Dict.get k [(A3, ["CAT"; "DOG"]); (B4, ["TOGA"])] = Ok sk ->
      Dict.mem k ([] : Assignment) = false ->
      List.length s <= List.length sk /\
      (List.length sk = List.length s ->
       List.length (neighbors corner_toga k)
       <= List.length (neighbors corner_toga B4)).
Proof.
  apply (select_unassigned_variable_mrv_degree corner_toga
           [(A3, ["CAT"; "DOG"]); (B4, ["TOGA"])] [] B4).
  reflexivity.
Defined.

(** X8.  On a complete assignment [select_unassigned_variable] raises
    [IndexError] (it indexes the empty list of candidates); [backtrack]
    calls it on incomplete assignments only. *)
Theorem select_unassigned_variable_complete_raises (c : Crossword)
    (d : Domains) (assignment : Assignment) :
  assignment_complete d assignment = true ->
  select_unassigned_variable c d assignment = Raise IndexError.
Proof.
  intros Hcomplete. unfold select_unassigned_variable.
  rewrite suv_count_assigned; [reflexivity|].
  unfold assignment_complete in Hcomplete.
  rewrite forallb_forall in Hcomplete. exact Hcomplete.
Qed.

Lemma select_unassigned_variable_complete_raises_witness :
  select_unassigned_variable crossed (init_domains crossed)
    [(A, "CAT"); (B, "APE")] = Raise IndexError.
Proof.
  apply (select_unassigned_variable_complete_raises crossed
           (init_domains crossed) [(A, "CAT"); (B, "APE")]).
  reflexivity.
Defined.

(* ------------------------------------------------------------------ *)
(** ** [sorted] is stable *)

Section SortedStable.
Context {A : Type} (key : A -> nat) (reverse : bool).

Lemma insert_sorted_filter n x l :
  filter (fun y => key y =? n) (insert_sorted key reverse x l)
  = filter (fun y => key y =? n) (x :: l).
Proof.
  induction l as [|y l IH]; simpl; [reflexivity|].
  destruct (precedes key reverse x y) eqn:Hxy; [reflexivity|].
  simpl. rewrite IH. simpl.
  destruct (Nat.eqb_spec (key y) n) as [Hy|Hy];
    destruct (Nat.eqb_spec (key x) n) as [Hx|Hx]; try reflexivity.
  exfalso. unfold precedes in Hxy.
  destruct reverse; apply Nat.leb_gt in Hxy; lia.
Qed.

Lemma sorted_filter n l :
  filter (fun y => key y =? n) (sorted key reverse l)
  = filter (fun y => key y =? n) l.
Proof.
  induction l as [|x l IH]; simpl; [reflexivity|].
  rewrite insert_sorted_filter. simpl. rewrite IH. reflexivity.
Qed.

End SortedStable.

Lemma filter_map_fst_keys (f : string -> nat) (n : nat)
    (items : list (string * nat)) :
  (forall p, In p items -> snd p = f (fst p)) ->
  filter (fun w => f w =? n) (map fst items)
  = map fst (filter (fun p => snd p =? n) items).
Proof.
  induction items as [|p items IH]; intros Hkeys; simpl; [reflexivity|].
  rewrite <- (Hkeys p (or_introl eq_refl)).
  rewrite IH by (intros q Hq; apply Hkeys; right; exact Hq).
  destruct (snd p =? n); reflexivity.
Qed.

(** X9.  [order_domain_values] breaks ties by the iteration order of the
    domain: the candidates with a given count, taken in the order of the
    result, are those of [domains[var]] taken in its own order. *)
Theorem order_domain_values_stable (c : Crossword) (d : Domains) (var : Var)
    (assignment : Assignment) (dv : pyset) :
  Dict.get var d = Ok dv -> NoDup dv ->
  neighbors_in_range c d assignment var dv ->
  exists l,
    order_domain_values c d var assignment = Ok l /\
    forall n,
      filter (fun w => kept c d assignment var w =? n) l
      = filter (fun w => kept c d assignment var w =? n) dv.
Proof.
  intros Hget Hnd Hr. unfold order_domain_values. rewrite Hget. simpl.
  rewrite (odv_count_spec c d assignment var dv Hr dv [] (incl_refl dv) Hnd)
    by (intros w _ []).
  simpl. eexists. split; [reflexivity|]. intros n.
  set (items := map (fun w => (w, kept c d assignment var w)) dv).
  assert (Hitems : forall p, In p items ->
                             snd p = kept c d assignment var (fst p)).
  { intros p Hp. unfold items in Hp. apply in_map_iff in Hp.
    destruct Hp as (w & <- & _). reflexivity. }
  rewrite (filter_map_fst_keys (kept c d assignment var) n
             (sorted snd true items)).
  - rewrite sorted_filter.
    rewrite <- (filter_map_fst_keys (kept c d assignment var) n items Hitems).
    unfold items. rewrite map_map. simpl. rewrite map_id. reflexivity.
  - intros p Hp. apply Hitems.
    apply (Permutation_in _ (sorted_perm snd true items)). exact Hp.
Qed.

Lemma order_domain_values_stable_witness :
  exists l,
    order_domain_values crossed
      [(A, ["COT"; "CAT"; "CAB"]); (B, ["APE"; "OWL"; "ANT"])] A [] = Ok l /\
    forall n,
      filter (fun w => kept crossed
                [(A, ["COT"; "CAT"; "CAB"]); (B, ["APE"; "OWL"; "ANT"])] [] A w
                =? n) l
      = filter (fun w => kept crossed
                  [(A, ["COT"; "CAT"; "CAB"]); (B, ["APE"; "OWL"; "ANT"])] [] A w
                  =? n) ["COT"; "CAT"; "CAB"].
Proof.
  apply (order_domain_values_stable crossed
           [(A, ["COT"; "CAT"; "CAB"]); (B, ["APE"; "OWL"; "ANT"])] A []
           ["COT"; "CAT"; "CAB"]).
  - reflexivity.
  - repeat constructor; simpl; intuition discriminate.
  - intros n Hn _. destruct Hn as [<-|[]].
    exists ["APE"; "OWL"; "ANT"]. split; [reflexivity|].
    intros a b Hov. inversion Hov; subst.
    split; repeat constructor.
Defined.

(* ------------------------------------------------------------------ *)
(** ** The words [order_domain_values] returns *)

Lemma odv_count_keys c d assignment var :
  forall (vals : list string) (count count' : dict string nat),
  odv_count c d assignment var vals count = Ok count' ->
  forall w, In w (Dict.keys count') <-> In w (Dict.keys count) \/ In w vals.
Proof.
  induction vals as [|value rest IH]; intros count count' Hrun w; simpl in Hrun.
  - inversion Hrun; subst. simpl. tauto.
  - destruct (odv_count_neighbors c d assignment var value (neighbors c var) 0)
      as [cnt|e]; simpl in Hrun; [|discriminate].
    rewrite (IH _ _ Hrun w), dict_set_keys_In. simpl. split.
    + intros [[->|H]|H]; auto.
    + intros [H|[<-|H]]; auto.
Qed.

Lemma order_domain_values_members c d var assignment (dv : pyset) l :
  Dict.get var d = Ok dv ->
  order_domain_values c d var assignment = Ok l ->
  forall w, In w l <-> In w dv.
Proof.
  intros Hget. unfold order_domain_values. rewrite Hget. simpl.
  destruct (odv_count c d assignment var dv []) as [count|e] eqn:Hrun; simpl;
    [|discriminate].
  intros Heq w. inversion Heq; subst. clear Heq.
  pose proof (odv_count_keys c d assignment var dv [] count Hrun w) as Hkeys.
  simpl in Hkeys. unfold Dict.keys in Hkeys. split; intros Hin.
  - apply (Permutation_in _ (Permutation_map fst (sorted_perm snd true count)))
      in Hin.
    apply Hkeys in Hin. destruct Hin as [[]|Hin]. exact Hin.
  - apply (Permutation_in _
             (Permutation_sym (Permutation_map fst (sorted_perm snd true count)))).
    apply Hkeys. right. exact Hin.
Qed.

(* ------------------------------------------------------------------ *)
(** ** What [backtrack] returns *)

Section BacktrackGrows.
Variable c : Crossword.
Variable d : Domains.

Lemma try_values_result recurse var : forall vals (assignment : Assignment) r,
  Dict.mem var assignment = false ->
  try_values recurse c var vals assignment = Ok (Some r) ->
  exists value, In value vals /\
                recurse (Dict.set var value assignment) = Ok (Some r).
Proof.
  induction vals as [|value rest IH]; intros assignment r Hmem; simpl;
    [discriminate|].
  rewrite (dict_del_set_new var value assignment Hmem). simpl.
  destruct (consistent c (Dict.set var value assignment)) as [[|]|e]; simpl;
    try discriminate.
  - destruct (recurse (Dict.set var value assignment))
      as [[[|binding more]|]|e] eqn:Hr; simpl; try discriminate.
    + intros Hrun. destruct (IH _ _ Hmem Hrun) as (v & Hv & Hrec). eauto.
    + intros Heq. inversion Heq; subst. eauto.
    + intros Hrun. destruct (IH _ _ Hmem Hrun) as (v & Hv & Hrec). eauto.
  - intros Hrun. destruct (IH _ _ Hmem Hrun) as (v & Hv & Hrec). eauto.
Qed.

Lemma backtrack_fuel_grows : forall fuel (assignment r : Assignment),
  backtrack_fuel fuel c d assignment = Ok (Some r) ->
  extends assignment r /\ drawn_from d assignment r.
Proof.
  induction fuel as [|fuel IH]; intros assignment r; simpl; [discriminate|].
  destruct (assignment_complete d assignment) eqn:Hcomplete.
  - intros Heq. inversion Heq; subst. split.
    + intros k w Hk. exact Hk.
    + intros k w Hk. left. exact Hk.
  - destruct (select_unassigned_variable_spec c d assignment Hcomplete)
      as (var & Hsel & Hin & Hmem).
    rewrite Hsel. simpl.
    destruct (order_domain_values c d var assignment) as [vals|e] eqn:Hodv;
      simpl; [|discriminate].
    intros Hrun.
    destruct (try_values_result _ var vals assignment r Hmem Hrun)
      as (value & Hvalue & Hrec).
    destruct (IH _ _ Hrec) as [Hext Hdrawn].
    destruct (dict_mem_get var d) as (dv & Hdv); [apply dict_mem_In; exact Hin|].
    assert (Hvar : forall w, Dict.get var assignment <> Ok w).
    { intros w Hw. apply dict_get_mem in Hw. congruence. }
    split.
    + intros k w Hk. apply Hext.
      rewrite dict_get_set_other; [exact Hk|].
      intros ->. apply (Hvar w Hk).
    + intros k w Hk. destruct (Hdrawn k w Hk) as [Hset|Hdom]; [|right; exact Hdom].
      destruct (eq_dec k var) as [->|Hne].
      * rewrite dict_get_set_same in Hset. inversion Hset; subst.
        right. exists dv. split; [exact Hdv|].
        apply (order_domain_values_members c d var assignment dv vals Hdv Hodv).
        exact Hvalue.
      * rewrite dict_get_set_other in Hset by exact Hne. left. exact Hset.
Qed.

End BacktrackGrows.

(** X10.  An assignment that [backtrack] returns keeps every binding of
    the assignment it was given, and every other binding gives the slot
    a word of its current domain. *)
Theorem backtrack_draws_from_domains (c : Crossword) (d : Domains)
    (assignment r : Assignment) :
  backtrack c d assignment = Ok (Some r) ->
  (forall k w, Dict.get k assignment = Ok w -> Dict.get k r = Ok w) /\
  (forall k w, Dict.get k r = Ok w ->
     Dict.get k assignment = Ok w \/
     exists dk : pyset, Dict.get k d = Ok dk /\ In w dk).
Proof.
  intros Hrun. apply (backtrack_fuel_grows c d _ assignment r Hrun).
Qed.

Lemma backtrack_draws_from_domains_witness :
  (forall k w, Dict.get k [(A, "COT")] = Ok w ->
               Dict.get k [(A, "COT"); (B, "OWL")] = Ok w) /\
  (forall k w, Dict.get k [(A, "COT"); (B, "OWL")] = Ok w ->
     Dict.get k [(A, "COT")] = Ok w \/
     exists dk : pyset,
       Dict.get k [(A, ["CAT"; "COT"]); (B, ["APE"; "OWL"; "ANT"])] = Ok dk /\
       In w dk).
Proof.
  apply (backtrack_draws_from_domains crossed
           [(A, ["CAT"; "COT"]); (B, ["APE"; "OWL"; "ANT"])]
           [(A, "COT")] [(A, "COT"); (B, "OWL")]).
  reflexivity.
Defined.

(* ------------------------------------------------------------------ *)
(** ** [backtrack] misses no solution *)

Lemma well_filled_extends (c : Crossword) (assignment r : Assignment) :
  extends assignment r -> well_filled c r -> well_filled c assignment.
Proof.
  intros Hext (Hlen & Hdistinct & Hagree). split; [|split].
  - intros var w Hw. apply Hlen. apply Hext. exact Hw.
  - intros var1 var2 w H1 H2. apply (Hdistinct var1 var2 w); apply Hext; assumption.
  - intros var n a b wv wn Hn Hov Hv Hw.
    apply (Hagree var n a b wv wn Hn Hov); apply Hext; assumption.
Qed.

Lemma dict_set_new_nodup (var : Var) (value : string) (assignment : Assignment) :
  NoDup (Dict.keys assignment) -> Dict.mem var assignment = false ->
  NoDup (Dict.keys (Dict.set var value assignment)).
Proof.
  intros Hnd Hmem. rewrite (dict_keys_set_new var value assignment Hmem).
  unfold Dict.keys. rewrite map_app. simpl.
  apply NoDup_app_remove_l with (l := []). simpl.
  apply Permutation_NoDup with (l := var :: map fst assignment).
  - apply Permutation_cons_append.
  - constructor; [|exact Hnd]. apply dict_mem_false. exact Hmem.
Qed.

Section BacktrackComplete.
Variable c : Crossword.
Variable d : Domains.
Variable r : Assignment.
Hypothesis Hr : consistent c r = Ok true.
Hypothesis Hdomains :
  forall var (dv : pyset), Dict.get var d = Ok dv ->
    exists w, Dict.get var r = Ok w /\ In w dv.

Lemma try_values_finds recurse var goal :
  forall vals (assignment : Assignment),
  Dict.mem var assignment = false ->
  consistent c (Dict.set var goal assignment) = Ok true ->
  recurse (Dict.set var goal assignment) <> Ok None ->
  recurse (Dict.set var goal assignment) <> Ok (Some []) ->
  In goal vals ->
  try_values recurse c var vals assignment <> Ok None.
Proof.
  intros vals assignment Hmem Hcons Hnone Hempty.
  induction vals as [|value rest IH]; intros Hin; simpl; [destruct Hin|].
  rewrite (dict_del_set_new var value assignment Hmem). simpl.
  destruct (String.eqb_spec value goal) as [->|Hne].
  - rewrite Hcons. simpl.
    destruct (recurse (Dict.set var goal assignment))
      as [[[|binding more]|]|e]; simpl; try congruence; discriminate.
  - assert (Hrest : In goal rest) by (destruct Hin; [congruence|assumption]).
    destruct (consistent c (Dict.set var value assignment)) as [[|]|e]; simpl;
      [|apply IH; exact Hrest|discriminate].
    destruct (recurse (Dict.set var value assignment))
      as [[[|binding more]|]|e]; simpl;
      try (apply IH; exact Hrest); discriminate.
Qed.

Lemma backtrack_fuel_finds : forall fuel (assignment : Assignment),
  NoDup (Dict.keys assignment) -> extends assignment r ->
  backtrack_fuel fuel c d assignment <> Ok None.
Proof.
  induction fuel as [|fuel IH]; intros assignment Hnd Hext; simpl; [discriminate|].
  destruct (assignment_complete d assignment) eqn:Hcomplete; [discriminate|].
  destruct (select_unassigned_variable_spec c d assignment Hcomplete)
    as (var & Hsel & Hin & Hmem).
  rewrite Hsel. simpl.
  destruct (order_domain_values c d var assignment) as [vals|e] eqn:Hodv;
    simpl; [|discriminate].
  destruct (dict_mem_get var d) as (dv & Hdv); [apply dict_mem_In; exact Hin|].
  destruct (Hdomains var dv Hdv) as (goal & Hgoal & Hgoaldv).
  assert (Hnd1 : NoDup (Dict.keys (Dict.set var goal assignment)))
    by (apply dict_set_new_nodup; assumption).
  assert (Hext1 : extends (Dict.set var goal assignment) r).
  { intros k w Hk. destruct (eq_dec k var) as [->|Hne].
    - rewrite dict_get_set_same in Hk. congruence.
    - rewrite dict_get_set_other in Hk by exact Hne. apply Hext. exact Hk. }
  apply (try_values_finds _ var goal vals assignment Hmem).
  - apply well_filled_consistent; [|exact Hnd1].
    apply (well_filled_extends c _ r Hext1).
    apply consistent_well_filled. exact Hr.
  - apply IH; assumption.
  - intros Hsome. apply backtrack_fuel_grows in Hsome. destruct Hsome as [Hgrow _].
    specialize (Hgrow var goal (dict_get_set_same var goal assignment)).
    discriminate.
  - apply (order_domain_values_members c d var assignment dv vals Hdv Hodv).
    exact Hgoaldv.
Qed.

End BacktrackComplete.

(** X11.  [backtrack] misses no solution: when some consistent
    assignment keeps the bindings of the (dict) assignment given and
    gives every slot of the store a word of its domain, [backtrack] does
    not answer [None]; it returns an assignment, unless an exception
    reaches it. *)
Theorem backtrack_complete (c : Crossword) (d : Domains)
    (assignment r : Assignment) :
  NoDup (Dict.keys assignment) ->
  (forall k w, Dict.get k assignment = Ok w -> Dict.get k r = Ok w) ->
  consistent c r = Ok true ->
  (forall var (dv : pyset), Dict.get var d = Ok dv ->
     exists w, Dict.get var r = Ok w /\ In w dv) ->
  (exists r', backtrack c d assignment = Ok (Some r')) \/
  (exists e, backtrack c d assignment = Raise e).
Proof.
  intros Hnd Hext Hr Hdomains.
  pose proof (backtrack_fuel_finds c d r Hr Hdomains
                (S (unassigned d assignment)) assignment Hnd Hext) as Hfinds.
  unfold backtrack.
  destruct (backtrack_fuel (S (unassigned d assignment)) c d assignment)
    as [[r'|]|e]; [left; eauto|congruence|right; eauto].
Qed.

Lemma backtrack_complete_witness :
  (exists r',
     backtrack crossed [(A, ["CAT"; "COT"]); (B, ["APE"; "OWL"; "ANT"])] []
     = Ok (Some r')) \/
  (exists e,
     backtrack crossed [(A, ["CAT"; "COT"]); (B, ["APE"; "OWL"; "ANT"])] []
     = Raise e).
Proof.
  apply (backtrack_complete crossed
           [(A, ["CAT"; "COT"]); (B, ["APE"; "OWL"; "ANT"])] []
           [(A, "COT"); (B, "OWL")]).
  - constructor.
  - intros k w Hk. discriminate.
  - reflexivity.
  - intros var dv. simpl.
    destruct (eq_dec var A) as [->|HA].
    + intros Heq. inversion Heq; subst. exists "COT".
      split; [reflexivity|right; left; reflexivity].
    + destruct (eq_dec var B) as [->|HB]; [|discriminate].
      intros Heq. inversion Heq; subst. exists "OWL". split.
      * simpl. destruct (eq_dec B A); [discriminate|].
        destruct (eq_dec B B); [reflexivity|congruence].
      * right; left; reflexivity.
Defined.

(* ------------------------------------------------------------------ *)
(** ** [backtrack] raises nothing on a well-formed puzzle *)

Section Returns.
Variable c : Crossword.
Variable d : Domains.
Hypothesis Hmodel : model_wf c d.
Hypothesis Hnode : node_consistent d.
Hypothesis Hwf : domains_wf d.

Lemma consistent_neighbors_returns (assignment : Assignment) var wv :
  drawn d assignment ->
  Dict.get var assignment = Ok wv ->
  var_length var = String.length wv ->
  forall ns, incl ns (neighbors c var) ->
  exists ok, consistent_neighbors c assignment var ns = Ok ok.
Proof.
  intros Hdrawn Hvar Hlen.
  assert (Hkey : In var (Dict.keys d)).
  { destruct (Hdrawn var wv Hvar) as (dk & Hdk & _).
    apply dict_mem_In. apply (dict_get_mem _ _ _ Hdk). }
  induction ns as [|n ns IH]; intros Hincl; simpl; [eauto|].
  assert (Hrest : incl ns (neighbors c var))
    by (intros z Hz; apply Hincl; right; exact Hz).
  destruct (overlaps c var n) as [[a b]|] eqn:Hov; [|apply IH; exact Hrest].
  destruct (Dict.mem n assignment) eqn:Hmem; [|apply IH; exact Hrest].
  destruct (dict_mem_get n assignment Hmem) as (wn & Hn).
  destruct (Hmodel var n Hkey (Hincl n (or_introl eq_refl))) as [_ Hab].
  destruct (Hab a b Hov) as [Ha Hb].
  destruct (Hdrawn n wn Hn) as (dn & Hdn & Hwn).
  pose proof (Hnode n dn wn Hdn Hwn) as Hlenn.
  destruct (char_at_in_range wv a) as (cv & Hcv & _); [lia|].
  destruct (char_at_in_range wn b) as (cn & Hcn & _); [lia|].
  rewrite Hvar. simpl. rewrite Hcv. simpl. rewrite Hn. simpl. rewrite Hcn. simpl.
  destruct (Ascii.eqb cv cn); simpl; [apply IH; exact Hrest|eauto].
Qed.

Lemma consistent_vars_returns (assignment : Assignment) :
  drawn d assignment ->
  forall vars values, incl vars (Dict.keys assignment) ->
  exists ok, consistent_vars c assignment vars values = Ok ok.
Proof.
  intros Hdrawn. induction vars as [|var rest IH]; intros values Hincl; simpl;
    [eauto|].
  destruct (dict_mem_get var assignment) as (w & Hget).
  { apply dict_mem_In. apply Hincl. left. reflexivity. }
  rewrite Hget. simpl.
  destruct (Nat.eqb_spec (var_length var) (String.length w)) as [Hlen|Hlen];
    simpl; [|eauto].
  destruct (list_mem w values); [eauto|].
  destruct (consistent_neighbors_returns assignment var w Hdrawn Hget Hlen
              (neighbors c var) (incl_refl _)) as (ok & ->).
  simpl. destruct ok; [|eauto].
  apply IH. intros z Hz. apply Hincl. right. exact Hz.
Qed.

Lemma consistent_returns (assignment : Assignment) :
  drawn d assignment -> exists ok, consistent c assignment = Ok ok.
Proof.
  intros Hdrawn. apply consistent_vars_returns; [exact Hdrawn|apply incl_refl].
Qed.

Lemma order_domain_values_returns (assignment : Assignment) var :
  In var (Dict.keys d) ->
  exists l, order_domain_values c d var assignment = Ok l.
Proof.
  intros Hkey.
  destruct (dict_mem_get var d) as (dv & Hdv); [apply dict_mem_In; exact Hkey|].
  assert (Hnd : NoDup dv).
  { destruct Hwf as [_ Hsets]. rewrite Forall_forall in Hsets.
    apply (Hsets (var, dv)). apply dict_get_In. exact Hdv. }
  assert (Hr : neighbors_in_range c d assignment var dv).
  { intros n Hn _. destruct (Hmodel var n Hkey Hn) as [Hnkey Hab].
    destruct (dict_mem_get n d) as (dn & Hdn); [apply dict_mem_In; exact Hnkey|].
    exists dn. split; [exact Hdn|]. intros a b Hov.
    destruct (Hab a b Hov) as [Ha Hb]. split; apply Forall_forall; intros w Hw.
    - rewrite (Hnode var dv w Hdv Hw). exact Ha.
    - rewrite (Hnode n dn w Hdn Hw). exact Hb. }
  unfold order_domain_values. rewrite Hdv. simpl.
  rewrite (odv_count_spec c d assignment var dv Hr dv [] (incl_refl dv) Hnd)
    by (intros w _ []).
  simpl. eauto.
Qed.

Lemma drawn_set (assignment : Assignment) var value (dv : pyset) :
  drawn d assignment -> Dict.get var d = Ok dv -> In value dv ->
  drawn d (Dict.set var value assignment).
Proof.
  intros Hdrawn Hdv Hvalue k w Hk. destruct (eq_dec k var) as [->|Hne].
  - rewrite dict_get_set_same in Hk. inversion Hk; subst. eauto.
  - rewrite dict_get_set_other in Hk by exact Hne. apply Hdrawn. exact Hk.
Qed.

Lemma try_values_returns recurse var (assignment : Assignment) :
  Dict.mem var assignment = false ->
  forall vals,
  (forall value, In value vals ->
     (exists ok, consistent c (Dict.set var value assignment) = Ok ok) /\
     (exists res, recurse (Dict.set var value assignment) = Ok res)) ->
  exists res, try_values recurse c var vals assignment = Ok res.
Proof.
  intros Hmem. induction vals as [|value rest IH]; intros Hall; simpl; [eauto|].
  rewrite (dict_del_set_new var value assignment Hmem). simpl.
  assert (Hrest : exists res, try_values recurse c var rest assignment = Ok res).
  { apply IH. intros v Hv. apply Hall. right. exact Hv. }
  destruct (Hall value (or_introl eq_refl)) as [(ok & ->) (res & ->)]. simpl.
  destruct ok; [|exact Hrest].
  destruct res as [[|binding more]|]; [exact Hrest|eauto|exact Hrest].
Qed.

Lemma backtrack_fuel_returns : forall fuel (assignment : Assignment),
  unassigned d assignment < fuel -> drawn d assignment ->
  exists res, backtrack_fuel fuel c d assignment = Ok res.
Proof.
  induction fuel as [|fuel IH]; intros assignment Hlt Hdrawn; [lia|]. simpl.
  destruct (assignment_complete d assignment) eqn:Hcomplete; [eauto|].
  destruct (select_unassigned_variable_spec c d assignment Hcomplete)
    as (var & Hsel & Hin & Hmem).
  rewrite Hsel. simpl.
  destruct (order_domain_values_returns assignment var Hin) as (vals & Hodv).
  rewrite Hodv. simpl.
  destruct (dict_mem_get var d) as (dv & Hdv); [apply dict_mem_In; exact Hin|].
  apply try_values_returns; [exact Hmem|].
  intros value Hvalue.
  assert (Hdrawn1 : drawn d (Dict.set var value assignment)).
  { apply (drawn_set assignment var value dv Hdrawn Hdv).
    apply (order_domain_values_members c d var assignment dv vals Hdv Hodv).
    exact Hvalue. }
  split.
  - apply consistent_returns. exact Hdrawn1.
  - apply IH; [|exact Hdrawn1].
    pose proof (unassigned_set_lt d assignment var value Hin Hmem). lia.
Qed.

End Returns.

(** X12.  On a well-formed puzzle (neighbors are slots of the store,
    overlaps index inside the slots) with a node-consistent, well-formed
    store, and an assignment drawn from the domains, [backtrack] raises
    nothing: it returns an assignment or [None]. *)
Theorem backtrack_returns (c : Crossword) (d : Domains)
    (assignment : Assignment) :
  model_wf c d -> node_consistent d -> domains_wf d ->
  drawn d assignment ->
  (exists r, backtrack c d assignment = Ok (Some r)) \/
  backtrack c d assignment = Ok None.
Proof.
  intros Hmodel Hnode Hwf Hdrawn.
  destruct (backtrack_fuel_returns c d Hmodel Hnode Hwf
              (S (unassigned d assignment)) assignment (Nat.lt_succ_diag_r _)
              Hdrawn) as ([r|] & Hres).
  - left. exists r. exact Hres.
  - right. exact Hres.
Qed.

Lemma backtrack_returns_witness :
  (exists r,
     backtrack crossed [(A, ["CAT"; "COT"]); (B, ["APE"; "OWL"; "ANT"])] []
     = Ok (Some r)) \/
  backtrack crossed [(A, ["CAT"; "COT"]); (B, ["APE"; "OWL"; "ANT"])] []
  = Ok None.
Proof.
  apply (backtrack_returns crossed
           [(A, ["CAT"; "COT"]); (B, ["APE"; "OWL"; "ANT"])] []).
  - intros var n [<-|[<-|[]]] [<-|[]]; (split; [simpl; auto|]);
      intros a b Hov; inversion Hov; subst; simpl; lia.
  - intros var dv w. simpl.
    destruct (eq_dec var A) as [->|HA].
    + intros Heq. inversion Heq; subst. intros [<-|[<-|[]]]; reflexivity.
    + destruct (eq_dec var B) as [->|HB]; [|discriminate].
      intros Heq. inversion Heq; subst. intros [<-|[<-|[<-|[]]]]; reflexivity.
  - split; simpl; repeat constructor; simpl; intuition discriminate.
  - intros k w Hk. discriminate.
Defined.

(* ------------------------------------------------------------------ *)
(** ** [backtrack] on an empty domain *)

(** X13.  When some unassigned slot has an empty domain, [backtrack]
    returns [None] at once: the slot selected has the fewest words, that
    is none, and there is no candidate to try. *)
Theorem backtrack_empty_domain (c : Crossword) (d : Domains)
    (assignment : Assignment) (k : Var) :
  Dict.get k d = Ok [] -> Dict.mem k assignment = false ->
  backtrack c d assignment = Ok None.
Proof.
  intros Hk Hmem. unfold backtrack. simpl.
  destruct (assignment_complete d assignment) eqn:Hcomplete.
  - exfalso. unfold assignment_complete in Hcomplete.
    rewrite forallb_forall in Hcomplete.
    rewrite (Hcomplete k) in Hmem; [discriminate|].
    apply dict_mem_In. apply (dict_get_mem _ _ _ Hk).
  - destruct (select_unassigned_variable_spec c d assignment Hcomplete)
      as (var & Hsel & _ & _).
    rewrite Hsel. simpl.
    destruct (select_unassigned_variable_order c d assignment var Hsel)
      as (_ & s & Hs & Hmin).
    destruct (Hmin k [] Hk Hmem) as [Hle _].
    destruct s as [|w s]; [|simpl in Hle; lia].
    unfold order_domain_values. rewrite Hs. reflexivity.
Qed.

Lemma backtrack_empty_domain_witness :
  backtrack corner [(A3, ["CAT"; "DOG"]); (B4, [])] [] = Ok None.
Proof.
  apply (backtrack_empty_domain corner [(A3, ["CAT"; "DOG"]); (B4, [])] [] B4);
    reflexivity.
Defined.

(* ------------------------------------------------------------------ *)
(** ** [solve], end to end *)

Lemma node_pruned_get (d : Domains) (k : Var) (s : pyset) :
  Dict.get k d = Ok s ->
  Dict.get k (node_pruned d) = Ok (filter (fits k) s).
Proof.
  unfold node_pruned. induction d as [|[k0 s0] d IH]; simpl; [discriminate|].
  destruct (eq_dec k k0) as [->|Hne]; [|exact IH].
  intros Heq. inversion Heq; subst. reflexivity.
Qed.

Lemma node_pruned_get_inv (d : Domains) (k : Var) (s' : pyset) :
  Dict.get k (node_pruned d) = Ok s' ->
  exists s : pyset, Dict.get k d = Ok s /\ s' = filter (fits k) s.
Proof.
  intros Hget.
  destruct (dict_mem_get k d) as (s & Hs).
  { apply dict_mem_In. rewrite <- node_pruned_keys. apply dict_mem_In.
    apply (dict_get_mem _ _ _ Hget). }
  exists s. split; [exact Hs|].
  rewrite (node_pruned_get d k s Hs) in Hget. congruence.
Qed.

Lemma node_pruned_node_consistent (d : Domains) :
  node_consistent (node_pruned d).
Proof.
  intros var dv w Hget Hw.
  destruct (node_pruned_get_inv d var dv Hget) as (s & _ & ->).
  apply filter_In in Hw. destruct Hw as [_ Hfits].
  unfold fits in Hfits. apply Nat.eqb_eq. exact Hfits.
Qed.

Lemma initial_arcs_keys (c : Crossword) (d d' : Domains) :
  Dict.keys d' = Dict.keys d -> initial_arcs c d' = initial_arcs c d.
Proof.
  intros Hkeys. unfold initial_arcs. rewrite Hkeys. reflexivity.
Qed.

(** What [solve] amounts to on a well-formed store. *)
Lemma solve_unfold (c : Crossword) (d : Domains) :
  domains_wf d ->
  solve c d = match initial_arcs c d with
              | [] => Raise IndexError
              | _ :: _ => backtrack c (node_pruned d) []
              end.
Proof.
  intros Hwf. unfold solve.
  rewrite (enforce_node_consistency_pruned d Hwf). simpl.
  rewrite ac3_unfold, (initial_arcs_keys c d (node_pruned d) (node_pruned_keys d)).
  destruct (initial_arcs c d); reflexivity.
Qed.

(** X14.  An assignment that [solve] returns on a well-formed store gives
    every slot a word, that word comes from the domain the slot had at
    the start (the dictionary, for the store of [__init__]), and the
    assignment has no length mismatch, no repeated word and no
    disagreement at an overlap. *)
Theorem solve_sound (c : Crossword) (d : Domains) (r : Assignment) :
  domains_wf d ->
  solve c d = Ok (Some r) ->
  assigns_all d r /\ well_filled c r /\
  forall k w, Dict.get k r = Ok w ->
    exists dk : pyset, Dict.get k d = Ok dk /\ In w dk.
Proof.
  intros Hwf. rewrite (solve_unfold c d Hwf).
  destruct (initial_arcs c d) as [|arc arcs]; [discriminate|].
  intros Hrun.
  destruct (backtrack_fuel_sound c (node_pruned d) _ [] r Hrun eq_refl)
    as [Hcomplete Hcons].
  destruct (backtrack_fuel_grows c (node_pruned d) _ [] r Hrun) as [_ Hdrawn].
  split; [|split].
  - apply assignment_complete_assigns_all in Hcomplete.
    intros var Hvar. apply Hcomplete. rewrite node_pruned_keys. exact Hvar.
  - apply consistent_well_filled. exact Hcons.
  - intros k w Hk. destruct (Hdrawn k w Hk) as [Hnil|(dk' & Hdk' & Hw)];
      [discriminate|].
    destruct (node_pruned_get_inv d k dk' Hdk') as (dk & Hdk & ->).
    exists dk. split; [exact Hdk|]. apply filter_In in Hw. tauto.
Qed.

Lemma solve_sound_witness :
  assigns_all (init_domains corner_toga) [(B4, "TOGA"); (A3, "CAT")] /\
  well_filled corner_toga [(B4, "TOGA"); (A3, "CAT")] /\
  forall k w, Dict.get k [(B4, "TOGA"); (A3, "CAT")] = Ok w ->
    exists dk : pyset, Dict.get k (init_domains corner_toga) = Ok dk /\ In w dk.
Proof.
  apply (solve_sound corner_toga (init_domains corner_toga)).
  - split; simpl; repeat constructor; simpl; intuition discriminate.
  - reflexivity.
Defined.

(** X15.  [solve] on a well-formed store does not answer [None] when the
    puzzle has a solution, that is a consistent assignment giving every
    slot a word of its initial domain: it returns an assignment, or
    raises (the [IndexError] of [ac3] on a puzzle without overlap). *)
Theorem solve_complete (c : Crossword) (d : Domains) (r : Assignment) :
  domains_wf d ->
  consistent c r = Ok true ->
  (forall var (dv : pyset), Dict.get var d = Ok dv ->
     exists w, Dict.get var r = Ok w /\ In w dv) ->
  (exists r', solve c d = Ok (Some r')) \/ (exists e, solve c d = Raise e).
Proof.
  intros Hwf Hr Hdomains. rewrite (solve_unfold c d Hwf).
  destruct (initial_arcs c d) as [|arc arcs]; [right; eauto|].
  assert (Hpruned : forall var (dv : pyset),
            Dict.get var (node_pruned d) = Ok dv ->
            exists w, Dict.get var r = Ok w /\ In w dv).
  { intros var dv' Hget.
    destruct (node_pruned_get_inv d var dv' Hget) as (dv & Hdv & ->).
    destruct (Hdomains var dv Hdv) as (w & Hw & Hin).
    exists w. split; [exact Hw|]. apply filter_In. split; [exact Hin|].
    destruct (consistent_well_filled c r Hr) as (Hlen & _).
    unfold fits. apply Nat.eqb_eq. symmetry. apply (Hlen var w Hw). }
  pose proof (backtrack_fuel_finds c (node_pruned d) r Hr Hpruned
                (S (unassigned (node_pruned d) [])) [] (NoDup_nil _)) as Hfinds.
  unfold backtrack.
  destruct (backtrack_fuel (S (unassigned (node_pruned d) [])) c (node_pruned d) [])
    as [[r'|]|e]; [left; eauto| |right; eauto].
  exfalso. apply Hfinds; [|reflexivity]. intros k w Hk. discriminate.
Qed.

Lemma solve_complete_witness :
  (exists r', solve corner_toga (init_domains corner_toga) = Ok (Some r')) \/
  (exists e, solve corner_toga (init_domains corner_toga) = Raise e).
Proof.
  apply (solve_complete corner_toga (init_domains corner_toga)
           [(A3, "CAT"); (B4, "TOGA")]).
  - split; simpl; repeat constructor; simpl; intuition discriminate.
  - reflexivity.
  - intros var dv. simpl.
    destruct (eq_dec var A3) as [->|HA].
    + intros Heq. inversion Heq; subst. exists "CAT".
      split; [reflexivity|left; reflexivity].
    + destruct (eq_dec var B4) as [->|HB]; [|discriminate].
      intros Heq. inversion Heq; subst. exists "TOGA". split.
      * simpl. destruct (eq_dec B4 A3); [discriminate|].
        destruct (eq_dec B4 B4); [reflexivity|congruence].
      * right; left; reflexivity.
Defined.

Lemma in_initial_arcs (c : Crossword) (d : Domains) (a b : Var)
    (overlap : nat * nat) :
  In a (Dict.keys d) -> In b (Dict.keys d) -> a <> b ->
  overlaps c a b = Some overlap -> In (a, b) (initial_arcs c d).
Proof.
  intros Ha Hb Hne Hov. unfold initial_arcs.
  apply in_flat_map. exists a. split; [exact Ha|].
  apply in_flat_map. exists b. split; [exact Hb|].
  unfold eqb_of. destruct (eq_dec a b); [contradiction|].
  simpl. rewrite Hov. left. reflexivity.
Qed.

(** X16.  On a well-formed puzzle and store with at least one pair of
    overlapping slots, [solve] raises nothing: it returns an assignment
    or [None]. *)
Theorem solve_returns (c : Crossword) (d : Domains) (a b : Var)
    (overlap : nat * nat) :
  domains_wf d -> model_wf c d ->
  In a (Dict.keys d) -> In b (Dict.keys d) -> a <> b ->
  overlaps c a b = Some overlap ->
  (exists r, solve c d = Ok (Some r)) \/ solve c d = Ok None.
Proof.
  intros Hwf Hmodel Ha Hb Hne Hov. rewrite (solve_unfold c d Hwf).
  pose proof (in_initial_arcs c d a b overlap Ha Hb Hne Hov) as Harc.
  destruct (initial_arcs c d) as [|arc arcs]; [destruct Harc|].
  assert (Hmodel' : model_wf c (node_pruned d)).
  { unfold model_wf. rewrite node_pruned_keys. exact Hmodel. }
  destruct (backtrack_fuel_returns c (node_pruned d) Hmodel'
              (node_pruned_node_consistent d) (node_pruned_wf d Hwf)
              (S (unassigned (node_pruned d) [])) [] (Nat.lt_succ_diag_r _))
    as ([r|] & Hres).
  - intros k w Hk. discriminate.
  - left. exists r. exact Hres.
  - right. exact Hres.
Qed.

Lemma solve_returns_witness :
  (exists r, solve corner (init_domains corner) = Ok (Some r)) \/
  solve corner (init_domains corner) = Ok None.
Proof.
  apply (solve_returns corner (init_domains corner) A3 B4 (2, 0)).
  - split; simpl; repeat constructor; simpl; intuition discriminate.
  - intros var n [<-|[<-|[]]] [<-|[]]; (split; [simpl; auto|]);
      intros a b Hov; inversion Hov; subst; simpl; lia.
  - left. reflexivity.
  - right. left. reflexivity.
  - discriminate.
  - reflexivity.
Defined.

(* ------------------------------------------------------------------ *)
(** ** [letter_grid] *)

Section ListSet.
Context {A : Type}.

Lemma list_set_ok : forall (l : list A) i x,
  i < List.length l -> exists l', list_set l i x = Ok l'.
Proof.
  induction l as [|y l IH]; intros i x Hi; simpl in *; [lia|].
  destruct i as [|i]; [eauto|].
  destruct (IH i x) as (l' & ->); [lia|]. simpl. eauto.
Qed.

Lemma list_set_outcome : forall (l : list A) i x,
  (exists l', list_set l i x = Ok l') \/ list_set l i x = Raise IndexError.
Proof.
  induction l as [|y l IH]; intros i x; simpl; [auto|].
  destruct i as [|i]; [eauto|].
  destruct (IH i x) as [(l' & ->)| ->]; simpl; eauto.
Qed.

Lemma list_set_spec : forall (l l' : list A) i x,
  list_set l i x = Ok l' ->
  i < List.length l /\ List.length l' = List.length l /\
  nth_error l' i = Some x /\
  forall i', i' <> i -> nth_error l' i' = nth_error l i'.
Proof.
  induction l as [|y l IH]; intros l' i x; simpl; [discriminate|].
  destruct i as [|i].
  - intros Heq. inversion Heq; subst. simpl. repeat split; [lia|].
    intros [|i'] Hne; [congruence|reflexivity].
  - destruct (list_set l i x) as [l''|e] eqn:Hset; simpl; [|discriminate].
    intros Heq. inversion Heq; subst.
    destruct (IH _ _ _ Hset) as (Hi & Hlen & Hnth & Hother). simpl.
    repeat split; [lia|lia|exact Hnth|].
    intros [|i'] Hne; [reflexivity|]. simpl. apply Hother. congruence.
Qed.

End ListSet.

Lemma grid_set_spec (letters letters' : Grid) i j x :
  grid_set i j x letters = Ok letters' ->
  (exists row, nth_error letters i = Some row /\ j < List.length row) /\
  (forall height width, rectangular height width letters ->
                        rectangular height width letters') /\
  grid_at letters' (i, j) = Some x /\
  forall cell, cell <> (i, j) -> grid_at letters' cell = grid_at letters cell.
Proof.
  unfold grid_set, list_get.
  destruct (nth_error letters i) as [row|] eqn:Hrow; simpl; [|discriminate].
  destruct (list_set row j x) as [row'|e] eqn:Hset; simpl; [|discriminate].
  intros Hset'.
  destruct (list_set_spec _ _ _ _ Hset) as (Hj & Hlen & Hnth & Hother).
  destruct (list_set_spec _ _ _ _ Hset') as (Hi & Hlen' & Hnth' & Hother').
  split; [eauto|]. split; [|split].
  - intros height width [Hh Hw]. split; [congruence|].
    apply Forall_forall. intros r Hr.
    apply In_nth_error in Hr. destruct Hr as (i' & Hi').
    rewrite Forall_forall in Hw.
    destruct (Nat.eq_dec i' i) as [->|Hne].
    + rewrite Hnth' in Hi'. inversion Hi'; subst. rewrite Hlen.
      apply Hw. apply (nth_error_In _ _ Hrow).
    + rewrite (Hother' i' Hne) in Hi'. apply Hw. apply (nth_error_In _ _ Hi').
  - unfold grid_at. simpl. rewrite Hnth'. exact Hnth.
  - intros [i' j'] Hcell. unfold grid_at. simpl.
    destruct (Nat.eq_dec i' i) as [->|Hne].
    + rewrite Hnth', Hrow. apply Hother. congruence.
    + rewrite (Hother' i' Hne). reflexivity.
Qed.

Lemma grid_set_ok (height width : nat) (letters : Grid) i j x :
  rectangular height width letters -> i < height -> j < width ->
  exists letters', grid_set i j x letters = Ok letters'.
Proof.
  intros [Hh Hw] Hi Hj. unfold grid_set, list_get.
  destruct (nth_error letters i) as [row|] eqn:Hrow.
  - simpl. rewrite Forall_forall in Hw.
    pose proof (Hw row (nth_error_In _ _ Hrow)) as Hlen.
    destruct (list_set_ok row j x) as (row' & ->); [lia|]. simpl.
    apply list_set_ok. lia.
  - apply nth_error_None in Hrow. lia.
Qed.

Lemma grid_set_outcome (letters : Grid) i j x :
  (exists letters', grid_set i j x letters = Ok letters')
  \/ grid_set i j x letters = Raise IndexError.
Proof.
  unfold grid_set, list_get.
  destruct (nth_error letters i) as [row|]; simpl; [|auto].
  destruct (list_set_outcome row j x) as [(row' & ->)| ->]; simpl; [|auto].
  apply list_set_outcome.
Qed.

Lemma cell_of_inj (variable : Var) (k k' : nat) :
  cell_of variable k = cell_of variable k' -> k = k'.
Proof.
  unfold cell_of. destruct (var_direction variable); simpl;
    intros Heq; inversion Heq; lia.
Qed.

Section LetterGridWord.
Variable variable : Var.
Variable word : string.

Lemma letter_grid_word_cons k (rest : list nat) (letters : Grid) :
  letter_grid_word variable word (k :: rest) letters
  = (ch <- char_at word k ;;
     letters' <- grid_set (fst (cell_of variable k)) (snd (cell_of variable k))
                   (Some ch) letters ;;
     letter_grid_word variable word rest letters').
Proof. reflexivity. Qed.

(** One word: the cells it covers get its letters, the others keep
    theirs. *)
Lemma letter_grid_word_spec : forall (ks : list nat) (letters letters' : Grid),
  letter_grid_word variable word ks letters = Ok letters' ->
  NoDup ks ->
  (forall height width, rectangular height width letters ->
     rectangular height width letters' /\
     forall k, In k ks -> fst (cell_of variable k) < height /\
                          snd (cell_of variable k) < width) /\
  (forall k, In k ks ->
     exists ch, String.get k word = Some ch /\
                grid_at letters' (cell_of variable k) = Some (Some ch)) /\
  (forall cell, (forall k, In k ks -> cell_of variable k <> cell) ->
     grid_at letters' cell = grid_at letters cell).
Proof.
  induction ks as [|k rest IH]; intros letters letters' Hrun Hnd.
  - simpl in Hrun. inversion Hrun; subst. split; [|split].
    + intros height width Hr. split; [exact Hr|]. intros k [].
    + intros k [].
    + intros cell _. reflexivity.
  - inversion Hnd as [|? ? Hnotin Hnd']; subst.
    rewrite letter_grid_word_cons in Hrun.
    destruct (cell_of variable k) as [i j] eqn:Hcell.
    unfold char_at in Hrun.
    destruct (String.get k word) as [ch|] eqn:Hch; cbn [bind fst snd] in Hrun;
      [|discriminate].
    destruct (grid_set i j (Some ch) letters) as [letters1|e] eqn:Hset;
      cbn [bind] in Hrun; [|discriminate].
    destruct (grid_set_spec _ _ _ _ _ Hset) as ((row & Hrow & Hj) & Hrect & Hat & Hother).
    destruct (IH _ _ Hrun Hnd') as (Hrect' & Hletters & Hrest).
    split; [|split].
    + intros height width Hr.
      destruct (Hrect' height width (Hrect height width Hr)) as [Hr' Hin].
      split; [exact Hr'|]. intros k' [<-|Hk']; [|apply Hin; exact Hk'].
      rewrite Hcell. simpl. destruct Hr as [Hh Hw]. split.
      * rewrite <- Hh. apply nth_error_Some. congruence.
      * rewrite Forall_forall in Hw.
        rewrite <- (Hw row (nth_error_In _ _ Hrow)). exact Hj.
    + intros k' [<-|Hk']; [|apply Hletters; exact Hk'].
      exists ch. split; [exact Hch|]. rewrite Hrest.
      * rewrite Hcell. exact Hat.
      * intros k' Hk' Heq. apply cell_of_inj in Heq. subst. contradiction.
    + intros cell Hfree. rewrite Hrest.
      * apply Hother. rewrite <- Hcell. intros ->.
        apply (Hfree k (or_introl eq_refl)). reflexivity.
      * intros k' Hk'. apply Hfree. right. exact Hk'.
Qed.

Lemma letter_grid_word_ok (height width : nat) :
  forall (ks : list nat) (letters : Grid),
  rectangular height width letters ->
  (forall k, In k ks -> k < String.length word /\
                        fst (cell_of variable k) < height /\
                        snd (cell_of variable k) < width) ->
  exists letters', letter_grid_word variable word ks letters = Ok letters'.
Proof.
  induction ks as [|k rest IH]; intros letters Hrect Hall; [simpl; eauto|].
  rewrite letter_grid_word_cons.
  destruct (Hall k (or_introl eq_refl)) as (Hk & Hi & Hj).
  destruct (cell_of variable k) as [i j]. cbn [fst snd] in *.
  destruct (char_at_in_range word k Hk) as (ch & -> & _). cbn [bind].
  destruct (grid_set_ok height width letters i j (Some ch) Hrect Hi Hj)
    as (letters1 & Hset).
  rewrite Hset. cbn [bind]. apply IH.
  - destruct (grid_set_spec _ _ _ _ _ Hset) as (_ & Hr & _). apply Hr. exact Hrect.
  - intros k' Hk'. apply Hall. right. exact Hk'.
Qed.

Lemma letter_grid_word_outcome :
  forall (ks : list nat) (letters : Grid),
  (forall k, In k ks -> k < String.length word) ->
  (exists letters', letter_grid_word variable word ks letters = Ok letters')
  \/ letter_grid_word variable word ks letters = Raise IndexError.
Proof.
  induction ks as [|k rest IH]; intros letters Hall; [simpl; eauto|].
  rewrite letter_grid_word_cons.
  destruct (cell_of variable k) as [i j]. cbn [fst snd].
  destruct (char_at_in_range word k (Hall k (or_introl eq_refl)))
    as (ch & -> & _). cbn [bind].
  destruct (grid_set_outcome letters i j (Some ch)) as [(letters1 & ->)| ->];
    cbn [bind]; [|auto].
  apply IH. intros k' Hk'. apply Hall. right. exact Hk'.
Qed.

End LetterGridWord.

Lemma covers_seq (variable : Var) (word : string) (cell : nat * nat) :
  covers variable word cell <->
  exists k, In k (seq 0 (String.length word)) /\ cell_of variable k = cell.
Proof.
  unfold covers. split; intros (k & Hk & Hcell); exists k; split; auto;
    apply in_seq in Hk || apply in_seq; lia.
Qed.

(** All the words: rows and columns stay, every word lies on the grid, a
    cell holds the letter of the last word that covers it, and a cell that
    no word covers keeps its content. *)
Lemma letter_grid_items_spec :
  forall (items : list (Var * string)) (letters letters' : Grid),
  letter_grid_items items letters = Ok letters' ->
  (forall height width, rectangular height width letters ->
     rectangular height width letters' /\ on_grid height width items) /\
  (forall before variable word after k ch,
     items = before ++ (variable, word) :: after ->
     String.get k word = Some ch ->
     (forall variable' word', In (variable', word') after ->
                              ~ covers variable' word' (cell_of variable k)) ->
     grid_at letters' (cell_of variable k) = Some (Some ch)) /\
  (forall cell,
     (forall variable word, In (variable, word) items ->
                            ~ covers variable word cell) ->
     grid_at letters' cell = grid_at letters cell).
Proof.
  induction items as [|[variable word] rest IH]; intros letters letters' Hrun;
    simpl in Hrun.
  - inversion Hrun; subst. split; [|split].
    + intros height width Hr. split; [exact Hr|]. intros v w k [].
    + intros [|? ?] variable word after k ch Heq; discriminate.
    + reflexivity.
  - destruct (letter_grid_word variable word (seq 0 (String.length word)) letters)
      as [letters1|e] eqn:Hword; simpl in Hrun; [|discriminate].
    destruct (letter_grid_word_spec variable word _ _ _ Hword (seq_NoDup _ _))
      as (Hrect & Hletters & Hfree).
    destruct (IH _ _ Hrun) as (Hrect' & Hlast & Hfree').
    split; [|split].
    + intros height width Hr.
      destruct (Hrect height width Hr) as [Hr1 Hin].
      destruct (Hrect' height width Hr1) as [Hr' Hon].
      split; [exact Hr'|].
      intros v w k [Heq|Hvw] Hk.
      * inversion Heq; subst. apply Hin. apply in_seq. lia.
      * apply (Hon v w k Hvw Hk).
    + intros before v w after k ch Heq Hch Hlater.
      destruct before as [|b before]; simpl in Heq; inversion Heq; subst.
      * rewrite Hfree'.
        -- assert (Hk : In k (seq 0 (String.length w))).
           { apply in_seq. split; [lia|]. simpl.
             destruct (Nat.lt_ge_cases k (String.length w)) as [H|H]; [exact H|].
             rewrite (get_out_of_range w k H) in Hch. discriminate. }
           destruct (Hletters k Hk) as (ch' & Hch' & Hat). congruence.
        -- exact Hlater.
      * apply (Hlast before v w after k ch eq_refl Hch Hlater).
    + intros cell Hnone. rewrite Hfree'.
      * apply Hfree. intros k Hk Hcell.
        apply (Hnone variable word (or_introl eq_refl)).
        apply covers_seq. eauto.
      * intros v w Hvw. apply Hnone. right. exact Hvw.
Qed.

Lemma letter_grid_items_ok (height width : nat) :
  forall (items : list (Var * string)) (letters : Grid),
  rectangular height width letters -> on_grid height width items ->
  exists letters', letter_grid_items items letters = Ok letters'.
Proof.
  induction items as [|[variable word] rest IH]; intros letters Hrect Hon; simpl;
    [eauto|].
  destruct (letter_grid_word_ok variable word height width
              (seq 0 (String.length word)) letters Hrect) as (letters1 & Hword).
  { intros k Hk. apply in_seq in Hk. split; [lia|].
    apply (Hon variable word k (or_introl eq_refl)). lia. }
  rewrite Hword. simpl. apply IH.
  - destruct (letter_grid_word_spec variable word _ _ _ Hword (seq_NoDup _ _))
      as (Hr & _). apply Hr. exact Hrect.
  - intros v w k Hvw. apply Hon. right. exact Hvw.
Qed.

Lemma letter_grid_items_outcome :
  forall (items : list (Var * string)) (letters : Grid),
  (exists letters', letter_grid_items items letters = Ok letters')
  \/ letter_grid_items items letters = Raise IndexError.
Proof.
  induction items as [|[variable word] rest IH]; intros letters; simpl; [eauto|].
  assert (Hks : forall k, In k (seq 0 (String.length word)) ->
                          k < String.length word)
    by (intros k Hk; apply in_seq in Hk; lia).
  destruct (letter_grid_word_outcome variable word
              (seq 0 (String.length word)) letters Hks) as [(letters1 & ->)| ->];
    simpl; [apply IH|auto].
Qed.

Lemma blank_rectangular (height width : nat) :
  rectangular height width (repeat (repeat None width) height).
Proof.
  split; [apply repeat_length|].
  apply Forall_forall. intros row Hrow. apply repeat_spec in Hrow. subst.
  apply repeat_length.
Qed.

Lemma blank_grid_at (height width : nat) (cell : nat * nat) :
  fst cell < height -> snd cell < width ->
  grid_at (repeat (repeat None width) height) cell = Some None.
Proof.
  intros Hi Hj. unfold grid_at.
  rewrite (nth_error_repeat _ Hi). apply (nth_error_repeat _ Hj).
Qed.

(** X17.  [letter_grid] returns a grid exactly when every cell of every
    assigned word lies on the grid, and the grid then has [height] rows
    of [width] cells; otherwise it raises [IndexError]. *)
Theorem letter_grid_outcome (height width : nat) (assignment : Assignment) :
  (on_grid height width assignment /\
   exists letters, letter_grid height width assignment = Ok letters /\
                   rectangular height width letters) \/
  (~ on_grid height width assignment /\
   letter_grid height width assignment = Raise IndexError).
Proof.
  unfold letter_grid.
  destruct (letter_grid_items_outcome assignment
              (repeat (repeat None width) height)) as [(letters & Hrun)|Hraise].
  - left.
    destruct (letter_grid_items_spec _ _ _ Hrun) as (Hrect & _).
    destruct (Hrect height width (blank_rectangular height width)) as [Hr Hon].
    split; [exact Hon|]. exists letters. split; [exact Hrun|exact Hr].
  - right. split; [|exact Hraise]. intros Hon.
    destruct (letter_grid_items_ok height width assignment _
                (blank_rectangular height width) Hon) as (letters & Hrun).
    congruence.
Qed.

(** X18.  In the grid that [letter_grid] returns, the cell of character
    [k] of an assigned word holds that character, unless a slot later in
    the assignment covers the cell: the last word written wins. *)
Theorem letter_grid_last_writer (height width : nat)
    (before after : Assignment) (variable : Var) (word : string)
    (k : nat) (ch : ascii) (letters : Grid) :
  letter_grid height width (before ++ (variable, word) :: after) = Ok letters ->
  String.get k word = Some ch ->
  (forall variable' word', In (variable', word') after ->
                           ~ covers variable' word' (cell_of variable k)) ->
  grid_at letters (cell_of variable k) = Some (Some ch).
Proof.
  unfold letter_grid. intros Hrun Hch Hlater.
  destruct (letter_grid_items_spec _ _ _ Hrun) as (_ & Hlast & _).
  apply (Hlast before variable word after k ch eq_refl Hch Hlater).
Qed.

Lemma letter_grid_last_writer_witness :
  grid_at [[Some "C"%char; Some "A"%char; Some "T"%char];
           [None; None; Some "O"%char];
           [None; None; Some "G"%char];
           [None; None; Some "A"%char]] (cell_of A3 2)
  = Some (Some "T"%char).
Proof.
  apply (letter_grid_last_writer 4 3 [(B4, "TOGA")] [] A3 "CAT" 2 "T"%char).
  - reflexivity.
  - reflexivity.
  - intros variable' word' [].
Defined.

(** X19.  A cell of the grid that no assigned word covers is [None] in
    the grid that [letter_grid] returns. *)
Theorem letter_grid_blank (height width : nat) (assignment : Assignment)
    (letters : Grid) (cell : nat * nat) :
  letter_grid height width assignment = Ok letters ->
  fst cell < height -> snd cell < width ->
  (forall variable word, In (variable, word) assignment ->
                         ~ covers variable word cell) ->
  grid_at letters cell = Some None.
Proof.
  unfold letter_grid. intros Hrun Hi Hj Hnone.
  destruct (letter_grid_items_spec _ _ _ Hrun) as (_ & _ & Hfree).
  rewrite (Hfree cell Hnone). apply blank_grid_at; assumption.
Qed.

Lemma letter_grid_blank_witness :
  grid_at [[Some "C"%char; Some "A"%char; Some "T"%char];
           [None; None; None]] (1, 0)
  = Some None.
Proof.
  apply (letter_grid_blank 2 3 [(A3, "CAT")]).
  - reflexivity.
  - simpl. lia.
  - simpl. lia.
  - intros variable word [Heq|[]] (k & _ & Hcell).
    inversion Heq; subst. unfold cell_of in Hcell. simpl in Hcell.
    discriminate.
Defined.
